(** * InterTask: the contract protocol of the task board

    A shallow embedding of the transaction and view handlers of the
    contract protocol (second part of [src/index.js], lines 194-382):
    [add_task], [complete_task], [cancel_task], [list_tasks], [get_task]
    and [stats], over the key/value store, the clock, the admin query and
    the sidechannel they are handed by the peer runtime.

    Handlers are written in a small state-and-exception monad in the order
    of the source statements.  A thrown exception keeps the world as it is
    at the throw: nothing is rolled back by the model, so "no write before
    an error" is a theorem and not a convention. *)

From Stdlib Require Import Ascii ZArith Sorted Permutation.
From stdpp Require Import base numbers option list strings gmap sets pretty sorting.

Local Open Scope Z_scope.
Set Warnings "-clear-no-such-hyp".
Set Warnings "-register-all".

(** ** JavaScript values carried by [params]

    [title] and [desc] reach [add_task] unchecked, so they are modelled as
    the values of a JSON document: scalars, arrays and objects, and
    [undefined] for a key that is absent.  A string is a sequence of code
    units; one [ascii] stands for one code unit, so [String.length] is the
    source's [.length].  A number is an integer.  An object is the list of
    its own properties, each key once; none of them is a function. *)

Inductive jsval :=
| JUndefined
| JNull
| JBool (b : bool)
| JNum (n : Z)
| JStr (s : string)
| JArr (items : list jsval)
| JObj (props : list (string * jsval)).

(** [!v] is [negb (truthy v)]. *)
Definition truthy (v : jsval) : bool :=
  match v with
  | JUndefined | JNull => false
  | JBool b => b
  | JNum n => negb (n =? 0)
  | JStr s => negb (bool_decide (s = ""))
  | JArr _ | JObj _ => true
  end.

Definition typeof (v : jsval) : string :=
  match v with
  | JUndefined => "undefined"
  | JNull | JArr _ | JObj _ => "object"
  | JBool _ => "boolean"
  | JNum _ => "number"
  | JStr _ => "string"
  end.

(** A destructuring default [{ x = d }] applies to [undefined] only. *)
Definition or_default (d v : jsval) : jsval :=
  match v with JUndefined => d | _ => v end.

(** Truthiness of a string and of a string-or-null. *)
Definition truthy_str (s : string) : bool := negb (bool_decide (s = "")).

Definition truthy_opt (o : option string) : bool :=
  match o with Some s => truthy_str s | None => false end.

(** [a === signer] where [a] is a string or [null]. *)
Definition strict_eq_opt (a : option string) (s : string) : bool :=
  match a with Some x => bool_decide (x = s) | None => false end.

(** ** String helpers: [trim] and [padStart] *)

(** White space and line terminators of [String.prototype.trim] that fit a
    code unit below 256: TAB, LF, VT, FF, CR, SPACE and NBSP. *)
Definition is_white (c : ascii) : bool :=
  match N_of_ascii c with
  | 9 | 10 | 11 | 12 | 13 | 32 | 160 => true
  | _ => false
  end%N.

Fixpoint trim_start (s : string) : string :=
  match s with
  | String c s' => if is_white c then trim_start s' else s
  | EmptyString => EmptyString
  end.

Definition trim_end (s : string) : string :=
  String.rev (trim_start (String.rev s)).

Definition trim (s : string) : string := trim_end (trim_start s).

Fixpoint repeat_char (n : nat) (c : ascii) : string :=
  match n with
  | O => EmptyString
  | S n' => String c (repeat_char n' c)
  end.

(** [s.padStart(n, c)] for a one-character filler: pads on the left up to
    length [n] and leaves a longer string alone. *)
Definition padStart (n : nat) (c : ascii) (s : string) : string :=
  repeat_char (n - String.length s) c +:+ s.

(** [`task_${String(id).padStart(6, '0')}`] *)
Definition format_task_id (n : N) : string :=
  "task_" +:+ padStart 6 "0" (pretty n).

(** ** What [v.length > k] asks of the engine

    [title.length] is a number.  [desc.length] is whatever the value
    handed in as [desc] has under that name, and [>] converts it to a
    number first: [ToPrimitive], then [ToNumber]. *)

(** [o.length] on an object parsed from JSON: its own property of that
    name, else [undefined]. *)
Fixpoint get_prop (k : string) (props : list (string * jsval)) : jsval :=
  match props with
  | [] => JUndefined
  | (k', v) :: rest => if bool_decide (k' = k) then v else get_prop k rest
  end.

Definition has_prop (k : string) (props : list (string * jsval)) : bool :=
  existsb (λ p, bool_decide (p.1 = k)) props.

(** [v.length] for a [v] that is neither [undefined] nor [null]: the code
    units of a string, the items of an array, the [length] property of an
    object; a boolean or a number has none. *)
Definition length_of (v : jsval) : jsval :=
  match v with
  | JStr s => JNum (Z.of_nat (String.length s))
  | JArr items => JNum (Z.of_nat (length items))
  | JObj props => get_prop "length" props
  | _ => JUndefined
  end.

(** [ToPrimitive] fails on [v]: an object reaches [Object.prototype.toString]
    unless a property of its own, which is no function, hides it; an array
    is joined by [Array.prototype.toString], which converts every item that
    is neither [undefined] nor [null] to a string. *)
Fixpoint no_primitive (v : jsval) : bool :=
  match v with
  | JArr items => existsb no_primitive items
  | JObj props => has_prop "toString" props
  | _ => false
  end.

(** *** [StringToNumber] *)

(** What a string denotes as a number, before rounding: [Finite m e] is
    [m] times ten to the power [e]. *)
Inductive numeral :=
| NaN
| Infinite (negative : bool)
| Finite (m e : Z).

Definition digit_value (c : ascii) : option N :=
  let n := N_of_ascii c in
  if (48 <=? n)%N && (n <=? 57)%N then Some (n - 48)%N
  else if (97 <=? n)%N && (n <=? 102)%N then Some (n - 87)%N
  else if (65 <=? n)%N && (n <=? 70)%N then Some (n - 55)%N
  else None.

(** The longest run of digits of [base] at the head of [s]: its value on
    top of [acc], the number of digits on top of [count], and the rest. *)
Fixpoint read_digits (base acc : N) (count : nat) (s : string) : N * nat * string :=
  match s with
  | String c s' =>
      match digit_value c with
      | Some d =>
          if (d <? base)%N then read_digits base (acc * base + d)%N (S count) s'
          else (acc, count, s)
      | None => (acc, count, s)
      end
  | EmptyString => (acc, count, s)
  end.

Definition radix_of (c : ascii) : option N :=
  match c with
  | "x" | "X" => Some 16
  | "o" | "O" => Some 8
  | "b" | "B" => Some 2
  | _ => None
  end%char%N.

Definition read_sign (s : string) : bool * string :=
  match s with
  | String "+" r => (false, r)
  | String "-" r => (true, r)
  | _ => (false, s)
  end.

Definition signed (negative : bool) (n : N) : Z :=
  if negative then - Z.of_N n else Z.of_N n.

(** Nothing, or [e] or [E], a sign if any, and digits up to the end. *)
Definition read_exponent (s : string) : option Z :=
  match s with
  | EmptyString => Some 0
  | String c r =>
      if bool_decide (c = "e"%char) || bool_decide (c = "E"%char) then
        let '(negative, r') := read_sign r in
        match read_digits 10 0 0 r' with
        | (x, S _, EmptyString) => Some (signed negative x)
        | _ => None
        end
      else None
  end.

(** A sign if any, then [Infinity], or digits with a point somewhere or
    nowhere (one digit at least) and an exponent if any. *)
Definition read_decimal (s : string) : numeral :=
  let '(negative, s1) := read_sign s in
  if bool_decide (s1 = "Infinity") then Infinite negative else
  let '(i, ni, s2) := read_digits 10 0 0 s1 in
  let '(m, nf, s3) :=
    match s2 with
    | String "." r => read_digits 10 i 0 r
    | _ => (i, 0%nat, s2)
    end in
  if bool_decide ((ni + nf)%nat = 0%nat) then NaN else
  match read_exponent s3 with
  | Some x => Finite (signed negative m) (x - Z.of_nat nf)
  | None => NaN
  end.

(** White space around the text is dropped; nothing left is zero; [0x],
    [0o] and [0b] open a numeral of that base, which takes no sign. *)
Definition string_to_number (s : string) : numeral :=
  match trim s with
  | EmptyString => Finite 0 0
  | String "0" (String p digits) as t =>
      match radix_of p with
      | Some base =>
          match read_digits base 0 0 digits with
          | (n, S _, EmptyString) => Finite (Z.of_N n) 0
          | _ => NaN
          end
      | None => read_decimal t
      end
  | t => read_decimal t
  end.

(** Whether the number nearest to [x] is greater than the integer literal
    [k], for [0 < k < 2^52] as the two limits of [add_task] are.  Numbers
    next to [k] lie [2^(1-p)] apart, where [p = 53 - log2 k], and what
    lies halfway rounds to [k]: so [x] must exceed [k + 2^(-p)]. *)
Definition numeral_gt (x : numeral) (k : Z) : bool :=
  match x with
  | NaN => false
  | Infinite negative => negb negative
  | Finite m e =>
      let p := 53 - Z.log2 k in
      if 0 <=? e then k * 2 ^ p + 1 <? m * 10 ^ e * 2 ^ p
      else (k * 2 ^ p + 1) * 10 ^ (- e) <? m * 2 ^ p
  end.

Definition string_gt (s : string) (k : Z) : bool :=
  numeral_gt (string_to_number s) k.

(** [v > k] for a [v] that has a primitive.  An array of one item
    converts as the text of that item does ([null] gives the empty text,
    [true] gives [true], an object gives [[object Object]]); an array of
    more items joins them with commas, which is no numeral, as
    [[object Object]] is none; an empty array gives the empty text. *)
Fixpoint gt_number (v : jsval) (k : Z) : bool :=
  match v with
  | JUndefined => false
  | JNull => k <? 0
  | JBool b => k <? (if b then 1 else 0)
  | JNum n => k <? n
  | JStr s => string_gt s k
  | JArr [] => k <? 0
  | JArr [x] =>
      match x with
      | JUndefined | JNull => k <? 0
      | JBool _ => false
      | _ => gt_number x k
      end
  | JArr _ => false
  | JObj _ => false
  end.

(** ** Data model *)

Inductive status := Open | Completed | Cancelled.

Global Instance status_eq_dec : EqDecision status.
Proof. solve_decision. Defined.

(** The string stored in the [status] field. *)
Definition status_str (st : status) : string :=
  match st with
  | Open => "open"
  | Completed => "completed"
  | Cancelled => "cancelled"
  end.

Record Task := mkTask {
  task_id : string;
  task_title : string;
  task_desc : string;
  task_assignee : option string;
  task_creator : string;
  task_status : status;
  task_created_at : Z;
  task_updated_at : Z;
  task_completed_by : option string;
  task_cancelled_by : option string
}.

(** The three assignments of [complete_task] and of [cancel_task]. *)
Definition mark_completed (t : Task) (now : Z) (signer : string) : Task :=
  {| task_id := task_id t; task_title := task_title t; task_desc := task_desc t;
     task_assignee := task_assignee t; task_creator := task_creator t;
     task_status := Completed;
     task_created_at := task_created_at t; task_updated_at := now;
     task_completed_by := Some signer;
     task_cancelled_by := task_cancelled_by t |}.

Definition mark_cancelled (t : Task) (now : Z) (signer : string) : Task :=
  {| task_id := task_id t; task_title := task_title t; task_desc := task_desc t;
     task_assignee := task_assignee t; task_creator := task_creator t;
     task_status := Cancelled;
     task_created_at := task_created_at t; task_updated_at := now;
     task_completed_by := task_completed_by t;
     task_cancelled_by := Some signer |}.

(** Modelled from the spec: the State Store behind [state] (section 4.1 of
    the specification; the storage engine is supplied by the peer runtime).
    Records, counters and named sets live under key families that share no
    key ([task:...], [task_seq], [tasks:...]), so each family is a map of
    its own.  Counters are unbounded integers. *)
Record Store := mkStore {
  records : gmap string Task;
  counters : gmap string N;
  sets : gmap string (gset string)
}.

Definition empty_store : Store :=
  {| records := ∅; counters := ∅; sets := ∅ |}.

Definition set_of (s : Store) (k : string) : gset string :=
  default ∅ (sets s !! k).

Definition counter_of (s : Store) (k : string) : N :=
  default 0%N (counters s !! k).

(** The object handed to [JSON.stringify] before [broadcast]. *)
Record notification := mkNote {
  note_type : string;
  note_id : string;
  note_status : string
}.

(** What a handler can touch: the store, how many times the clock has been
    read, and the messages sent on the sidechannel (newest first). *)
Record World := mkWorld {
  store : Store;
  ticks : nat;
  outbox : list notification
}.

Definition empty_world : World :=
  {| store := empty_store; ticks := 0%nat; outbox := [] |}.

(** ** Exceptions and the handler monad *)

(** [Error msg] is [throw new Error(msg)]; [TypeError msg] is the fault the
    engine raises on a property read of [null]/[undefined] or on a call of
    something that is not a function. *)
Inductive error :=
| Error (msg : string)
| TypeError (msg : string).

Inductive outcome (A : Type) :=
| Ok (a : A)
| Throw (e : error).
Global Arguments Ok {A} a.
Global Arguments Throw {A} e.

Definition M (A : Type) : Type := World → outcome A * World.

Global Instance M_ret : MRet M := λ A a w, (Ok a, w).

Global Instance M_bind : MBind M := λ A B f m w,
  match m w with
  | (Ok a, w') => f a w'
  | (Throw e, w') => (Throw e, w')
  end.

Definition throw {A} (e : error) : M A := λ w, (Throw e, w).

Definition with_store (f : Store → Store) : M unit :=
  λ w, (Ok tt, {| store := f (store w); ticks := ticks w; outbox := outbox w |}).

(** *** Store primitives

    Each write is a function on the store; [state_*] is the call through
    the [state] object of the handler context. *)

Definition store_set (k : string) (t : Task) (s : Store) : Store :=
  {| records := <[k := t]> (records s); counters := counters s; sets := sets s |}.

(** The first increment of an unseen counter returns 1. *)
Definition store_increment (k : string) (s : Store) : Store :=
  {| records := records s;
     counters := <[k := (counter_of s k + 1)%N]> (counters s);
     sets := sets s |}.

Definition store_sadd (k x : string) (s : Store) : Store :=
  {| records := records s; counters := counters s;
     sets := <[k := {[x]} ∪ set_of s k]> (sets s) |}.

Definition store_srem (k x : string) (s : Store) : Store :=
  {| records := records s; counters := counters s;
     sets := <[k := set_of s k ∖ {[x]}]> (sets s) |}.

Definition state_get (k : string) : M (option Task) :=
  λ w, (Ok (records (store w) !! k), w).

Definition state_set (k : string) (t : Task) : M unit :=
  with_store (store_set k t).

Definition state_increment (k : string) : M N :=
  λ w, (Ok (counter_of (store w) k + 1)%N,
        {| store := store_increment k (store w);
           ticks := ticks w; outbox := outbox w |}).

Definition state_sadd (k x : string) : M unit := with_store (store_sadd k x).

Definition state_srem (k x : string) : M unit := with_store (store_srem k x).

Definition state_smembers (k : string) : M (list string) :=
  λ w, (Ok (elements (set_of (store w) k)), w).

(** *** Property reads and method calls on a dynamically typed value *)

(** [v.length].  The text of the engine's messages is V8's; nothing below
    depends on it. *)
Definition get_length (v : jsval) : M jsval :=
  match v with
  | JUndefined =>
      throw (TypeError "Cannot read properties of undefined (reading 'length')")
  | JNull =>
      throw (TypeError "Cannot read properties of null (reading 'length')")
  | _ => mret (length_of v)
  end.

(** [len > k]: a fault when [len] has no primitive; [undefined] converts
    to NaN and compares false. *)
Definition js_gt (len : jsval) (k : Z) : M bool :=
  if no_primitive len
  then throw (TypeError "Cannot convert object to primitive value")
  else mret (gt_number len k).

(** [v.trim()], where [name] is the variable holding [v]. *)
Definition call_trim (name : string) (v : jsval) : M string :=
  match v with
  | JStr s => mret (trim s)
  | JUndefined =>
      throw (TypeError "Cannot read properties of undefined (reading 'trim')")
  | JNull =>
      throw (TypeError "Cannot read properties of null (reading 'trim')")
  | JBool _ | JNum _ | JArr _ | JObj _ =>
      throw (TypeError (name +:+ ".trim is not a function"))
  end.

(** ** The handlers *)

Record add_task_params := mkAddParams {
  p_title : jsval;
  p_desc : jsval;
  p_assignee : option string
}.

(** [{ success: true, id, task }] *)
Record tx_result := mkResult {
  success : bool;
  res_id : string;
  res_task : Task
}.

(** Transactions as operations of the replicated log. *)

Inductive op :=
| AddTask (signer : string) (params : add_task_params)
| CompleteTask (signer : string) (id : string)
| CancelTask (signer : string) (id : string).

(** Ids handed out by an operation: the id of a successful [add_task]. *)
Definition created_by (o : op) (r : outcome tx_result) : list string :=
  match o, r with
  | AddTask _ _, Ok res => [res_id res]
  | _, _ => []
  end.

Section Handlers.

(** The node's wall clock: [now k] is what the [k]-th call of [Date.now()]
    returns on this node. *)
Variable now : nat → Z.

(** [peer.isAdmin], the admin-membership query of the peer runtime. *)
Variable isAdmin : string → bool.

Definition date_now : M Z :=
  λ w, (Ok (now (ticks w)),
        {| store := store w; ticks := S (ticks w); outbox := outbox w |}).

Definition broadcast (n : notification) : M unit :=
  λ w, (Ok tt, {| store := store w; ticks := ticks w; outbox := n :: outbox w |}).

Definition add_task (signer : string) (params : add_task_params) : M tx_result :=
  let title := p_title params in
  let desc := or_default (JStr "") (p_desc params) in
  let assignee := p_assignee params in
  if negb (truthy title) || negb (bool_decide (typeof title = "string"))
  then throw (Error "title is required") else
  tlen ← get_length title;
  tlong ← js_gt tlen 140;
  if (tlong : bool) then throw (Error "title exceeds 140 characters") else
  dlen ← get_length desc;
  dlong ← js_gt dlen 1000;
  if (dlong : bool) then throw (Error "desc exceeds 1000 characters") else
  id ← state_increment "task_seq";
  let taskId := format_task_id id in
  ttitle ← call_trim "title" title;
  tdesc ← call_trim "desc" desc;
  created ← date_now;
  updated ← date_now;
  let task :=
    {| task_id := taskId; task_title := ttitle; task_desc := tdesc;
       task_assignee := assignee; task_creator := signer;
       task_status := Open;
       task_created_at := created; task_updated_at := updated;
       task_completed_by := None; task_cancelled_by := None |} in
  state_set ("task:" +:+ taskId) task;;
  state_sadd "tasks:all" taskId;;
  state_sadd "tasks:open" taskId;;
  (if truthy_opt assignee
   then state_sadd ("tasks:assignee:" +:+ default "" assignee) taskId
   else mret tt);;
  broadcast {| note_type := "task_update"; note_id := taskId; note_status := "open" |};;
  mret {| success := true; res_id := taskId; res_task := task |}.

Definition complete_task (signer : string) (id : string) : M tx_result :=
  if negb (truthy_str id) then throw (Error "id is required") else
  task ← state_get ("task:" +:+ id);
  match task with
  | None => throw (Error ("Task " +:+ id +:+ " not found"))
  | Some task =>
    if negb (bool_decide (task_status task = Open))
    then throw (Error ("Task " +:+ id +:+ " is not open (status: "
                        +:+ status_str (task_status task) +:+ ")")) else
    let isAuthorized :=
      bool_decide (task_creator task = signer)
      || strict_eq_opt (task_assignee task) signer in
    if negb isAuthorized
    then throw (Error "Only the creator or assignee may complete this task") else
    t ← date_now;
    let task := mark_completed task t signer in
    state_set ("task:" +:+ id) task;;
    state_srem "tasks:open" id;;
    state_sadd "tasks:completed" id;;
    broadcast {| note_type := "task_update"; note_id := id;
                 note_status := "completed" |};;
    mret {| success := true; res_id := id; res_task := task |}
  end.

Definition cancel_task (signer : string) (id : string) : M tx_result :=
  if negb (truthy_str id) then throw (Error "id is required") else
  task ← state_get ("task:" +:+ id);
  match task with
  | None => throw (Error ("Task " +:+ id +:+ " not found"))
  | Some task =>
    if negb (bool_decide (task_status task = Open))
    then throw (Error ("Task " +:+ id +:+ " is not open")) else
    let isAdmin := isAdmin signer in
    if negb (bool_decide (task_creator task = signer)) && negb isAdmin
    then throw (Error "Only the creator or an admin may cancel this task") else
    t ← date_now;
    let task := mark_cancelled task t signer in
    state_set ("task:" +:+ id) task;;
    state_srem "tasks:open" id;;
    state_sadd "tasks:cancelled" id;;
    broadcast {| note_type := "task_update"; note_id := id;
                 note_status := "cancelled" |};;
    mret {| success := true; res_id := id; res_task := task |}
  end.

(** *** Views *)

(** The comparator handed to [tasks.sort]. *)
Definition by_created_desc (a b : Task) : Z :=
  task_created_at b - task_created_at a.

(** [Array.prototype.sort] is a stable sort: [x] moves behind [y] only
    when the comparator says so ([cmp x y > 0]).  [sort_insert] places an
    element that stood before all of [l]. *)
Fixpoint sort_insert (cmp : Task → Task → Z) (x : Task) (l : list Task) : list Task :=
  match l with
  | [] => [x]
  | y :: l' => if 0 <? cmp x y then y :: sort_insert cmp x l' else x :: l
  end.

Fixpoint js_sort (cmp : Task → Task → Z) (l : list Task) : list Task :=
  match l with
  | [] => []
  | x :: l' => sort_insert cmp x (js_sort cmp l')
  end.

(** [{ tasks, count }] *)
Record list_result := mkList {
  r_tasks : list Task;
  r_count : nat
}.

(** The [for (const id of ids)] loop of [list_tasks]; [acc] is the array
    [tasks] built so far. *)
Fixpoint list_tasks_loop (status : option string) (ids : list string)
    (acc : list Task) : M (list Task) :=
  match ids with
  | [] => mret acc
  | id :: ids' =>
    t ← state_get ("task:" +:+ id);
    match t with
    | Some t =>
      if negb (truthy_opt status)
         || bool_decide (Some (status_str (task_status t)) = status)
      then list_tasks_loop status ids' (acc ++ [t])
      else list_tasks_loop status ids' acc
    | None => list_tasks_loop status ids' acc
    end
  end.

(** [status] and [assignee] are a string or absent ([undefined]/[null]). *)
Definition list_tasks (status assignee : option string) : M list_result :=
  ids ← (if truthy_opt assignee
         then state_smembers ("tasks:assignee:" +:+ default "" assignee)
         else if truthy_opt status
         then state_smembers ("tasks:" +:+ default "" status)
         else state_smembers "tasks:all");
  tasks ← list_tasks_loop status ids [];
  let tasks := js_sort by_created_desc tasks in
  mret {| r_tasks := tasks; r_count := length tasks |}.

Definition get_task (id : string) : M Task :=
  if negb (truthy_str id) then throw (Error "id is required") else
  task ← state_get ("task:" +:+ id);
  match task with
  | None => throw (Error ("Task " +:+ id +:+ " not found"))
  | Some task => mret task
  end.

(** [{ total, open, completed, cancelled }] *)
Record stats_result := mkStats {
  s_total : nat;
  s_open : nat;
  s_completed : nat;
  s_cancelled : nat
}.

Definition stats : M stats_result :=
  all ← state_smembers "tasks:all";
  opn ← state_smembers "tasks:open";
  cmp ← state_smembers "tasks:completed";
  cnc ← state_smembers "tasks:cancelled";
  mret {| s_total := length all; s_open := length opn;
          s_completed := length cmp; s_cancelled := length cnc |}.

(** *** Applying the replicated log *)

(** One ordered operation applied to the local world. *)
Definition apply (o : op) : M tx_result :=
  match o with
  | AddTask signer params => add_task signer params
  | CompleteTask signer id => complete_task signer id
  | CancelTask signer id => cancel_task signer id
  end.

(** The operations of a log applied in order; a failed one is reported and
    the next one is applied to the world it left. *)
Fixpoint run (ops : list op) (w : World) : list (outcome tx_result) * World :=
  match ops with
  | [] => ([], w)
  | o :: ops' =>
    let '(r, w') := apply o w in
    let '(rs, w'') := run ops' w' in
    (r :: rs, w'')
  end.

(** The ids created by [run], newest first, in front of [acc]. *)
Fixpoint run_created (ops : list op) (w : World) (acc : list string) : list string :=
  match ops with
  | [] => acc
  | o :: ops' =>
    let '(r, w') := apply o w in
    run_created ops' w' (created_by o r ++ acc)
  end.

End Handlers.

(** [history w ids]: [w] is reached from the empty world by some sequence
    of operations, successful or not, each applied under some clock and
    some admin membership, and [ids] are the ids created on the way, newest
    first. *)
Inductive history : World → list string → Prop :=
| history_init : history empty_world []
| history_step w ids now isAdmin o r w' :
    history w ids →
    apply now isAdmin o w = (r, w') →
    history w' (created_by o r ++ ids).

(** ** The specification's error taxonomy

    The source throws plain [Error] objects that differ by message only.
    Each [throw] site is listed under the class the specification gives
    it; the faults of the engine ([TypeError]) belong to none. *)

Inductive error_class :=
| ValidationError
| NotFoundError
| InvalidStateError
| AuthorizationError.

Inductive raised_as : error → error_class → Prop :=
| title_required :
    raised_as (Error "title is required") ValidationError
| title_too_long :
    raised_as (Error "title exceeds 140 characters") ValidationError
| desc_too_long :
    raised_as (Error "desc exceeds 1000 characters") ValidationError
| id_required :
    raised_as (Error "id is required") ValidationError
| task_not_found id :
    raised_as (Error ("Task " +:+ id +:+ " not found")) NotFoundError
| not_open_complete id st :
    raised_as (Error ("Task " +:+ id +:+ " is not open (status: "
                       +:+ status_str st +:+ ")")) InvalidStateError
| not_open_cancel id :
    raised_as (Error ("Task " +:+ id +:+ " is not open")) InvalidStateError
| complete_forbidden :
    raised_as (Error "Only the creator or assignee may complete this task")
              AuthorizationError
| cancel_forbidden :
    raised_as (Error "Only the creator or an admin may cancel this task")
              AuthorizationError.

(** ** Index sets, invariant and post-states *)

Definition all_ids (s : Store) : gset string := set_of s "tasks:all".

Definition status_key (st : status) : string :=
  match st with
  | Open => "tasks:open"
  | Completed => "tasks:completed"
  | Cancelled => "tasks:cancelled"
  end.

Definition status_set (s : Store) (st : status) : gset string :=
  set_of s (status_key st).

Definition task_seq (s : Store) : N := counter_of s "task_seq".

Definition record_of (s : Store) (id : string) : option Task :=
  records s !! ("task:" +:+ id).

(** Index consistency: the ids of [tasks:all] are the ids with a record,
    each sits in the status set named by its record and in no other, and
    every id handed out so far was built from a counter value not above
    the current one. *)
Record consistent (s : Store) : Prop := {
  cons_record : ∀ id, id ∈ all_ids s ↔ is_Some (record_of s id);
  cons_status : ∀ id t, record_of s id = Some t →
                ∀ st, id ∈ status_set s st ↔ task_status t = st;
  cons_subset : ∀ st id, id ∈ status_set s st → id ∈ all_ids s;
  cons_seq : ∀ id, id ∈ all_ids s →
             ∃ n, (1 ≤ n ≤ task_seq s)%N ∧ id = format_task_id n
}.

(** The task built by [add_task] from the counter value [n], the untrimmed
    strings and the clock readings [k] and [k + 1]. *)
Definition new_task (now : nat → Z) (signer : string) (n : N)
    (t d : string) (a : option string) (k : nat) : Task :=
  {| task_id := format_task_id n; task_title := trim t; task_desc := trim d;
     task_assignee := a; task_creator := signer; task_status := Open;
     task_created_at := now k; task_updated_at := now (S k);
     task_completed_by := None; task_cancelled_by := None |}.

(** The writes of a successful [add_task], in source order. *)
Definition add_task_store (task : Task) (a : option string) (s : Store) : Store :=
  let id := task_id task in
  let s1 := store_sadd "tasks:open" id
              (store_sadd "tasks:all" id
                 (store_set ("task:" +:+ id) task
                    (store_increment "task_seq" s))) in
  if truthy_opt a then store_sadd ("tasks:assignee:" +:+ default "" a) id s1
  else s1.

(** The writes of a successful [complete_task] or [cancel_task]. *)
Definition move_task_store (id : string) (task : Task) (s : Store) : Store :=
  store_sadd (status_key (task_status task)) id
    (store_srem "tasks:open" id (store_set ("task:" +:+ id) task s)).

Definition sent (id : string) (st : status) (w : World) (s : Store) (k : nat) : World :=
  {| store := s; ticks := k;
     outbox := {| note_type := "task_update"; note_id := id;
                  note_status := status_str st |} :: outbox w |}.

(** What the destructuring default leaves of [desc] when it is usable as a
    string: absent means empty. *)
Definition desc_string (v : jsval) : option string :=
  match v with
  | JUndefined => Some ""
  | JStr d => Some d
  | _ => None
  end.

(** A [desc] on which [desc.length > 1000] faults: [null] has no
    properties, and the length of the others may have no primitive. *)
Definition faults_at_length (v : jsval) : Prop :=
  v = JNull ∨ (desc_string v = None ∧ no_primitive (length_of v) = true).

(** A [desc] that passes the length test and has no [trim] to call. *)
Definition faults_at_trim (v : jsval) : Prop :=
  desc_string v = None ∧ v ≠ JNull ∧
  no_primitive (length_of v) = false ∧
  gt_number (length_of v) 1000 = false.

(** ** The specification's reading of [add_task] validation and of
    [list_tasks] *)

(** "title missing, not a string, or empty" *)
Definition title_missing (v : jsval) : Prop :=
  match v with JStr t => t = "" | _ => True end.

(** "longer than [n] characters": of a string its code units, of any
    other value what it has as its length, if that is a number above
    [n]. *)
Definition longer_than (n : nat) (v : jsval) : Prop :=
  match v with
  | JStr s => (n < String.length s)%nat
  | JArr items => (n < length items)%nat
  | JObj props =>
      no_primitive (get_prop "length" props) = false ∧
      gt_number (get_prop "length" props) (Z.of_nat n) = true
  | _ => False
  end.

(** The tasks on record for a list of ids, absent ones skipped. *)
Definition present_tasks (s : Store) (ids : list string) : list Task :=
  omap (record_of s) ids.

(** The resolution order of [list_tasks] as the specification words it:
    the assignee index post-filtered by status, else the status set, else
    [tasks:all]; no filter in the last two. *)
Definition list_tasks_candidates (s : Store) (status : option status)
    (assignee : option string) : list Task :=
  match assignee, status with
  | Some a, Some st =>
      filter (λ t, task_status t = st)
        (present_tasks s (elements (set_of s ("tasks:assignee:" +:+ a))))
  | Some a, None =>
      present_tasks s (elements (set_of s ("tasks:assignee:" +:+ a)))
  | None, Some st => present_tasks s (elements (status_set s st))
  | None, None => present_tasks s (elements (all_ids s))
  end.

(** The test of the loop body of [list_tasks] on a fetched task. *)
Definition kept (status : option string) (t : Task) : Prop :=
  negb (truthy_opt status)
  || bool_decide (Some (status_str (task_status t)) = status).

Global Instance kept_dec status t : Decision (kept status t).
Proof. unfold kept. apply _. Defined.

(** Newest first. *)
Definition newer_or_same (a b : Task) : Prop :=
  task_created_at b ≤ task_created_at a.

(** A [desc] that is no string and has a length over the limit: an array
    of 1001 items. *)
Definition long_array : jsval := JArr (replicate 1001 JNull).

(** ** The example scenario of the specification *)

Definition scenario_clock (k : nat) : Z := 1708300000000 + Z.of_nat k.

Definition scenario_admin (who : string) : bool := bool_decide (who = "root").

Definition write_spec : add_task_params :=
  {| p_title := JStr "Write spec"; p_desc := JUndefined; p_assignee := None |}.

Definition review_spec : add_task_params :=
  {| p_title := JStr "  Review spec "; p_desc := JStr "second pass";
     p_assignee := Some "B" |}.

Definition scenario : list op :=
  [ AddTask "A" write_spec;
    CompleteTask "B" "task_000001";
    CompleteTask "A" "task_000001";
    CompleteTask "A" "task_000001";
    AddTask "A" review_spec;
    CancelTask "B" "task_000002";
    CancelTask "root" "task_000002";
    AddTask "C" write_spec ].

(** The world after the first [n] operations of the scenario. *)
Definition world_after (n : nat) : World :=
  snd (run scenario_clock scenario_admin (take n scenario) empty_world).

Definition scenario_world : World := world_after 8.

(** What an operation reported: the id and status of the task, or the
    message of the exception. *)
Definition outcome_summary (r : outcome tx_result) : string + string * status :=
  match r with
  | Ok res => inr (res_id res, task_status (res_task res))
  | Throw (Error msg) | Throw (TypeError msg) => inl msg
  end.

(** ** Further vocabulary for the properties of the contract *)

(** A record with its two clock readings blanked. *)
Definition erase_times (t : Task) : Task :=
  {| task_id := task_id t; task_title := task_title t; task_desc := task_desc t;
     task_assignee := task_assignee t; task_creator := task_creator t;
     task_status := task_status t;
     task_created_at := 0; task_updated_at := 0;
     task_completed_by := task_completed_by t;
     task_cancelled_by := task_cancelled_by t |}.

Definition erase_store (s : Store) : Store :=
  {| records := erase_times <$> records s;
     counters := counters s; sets := sets s |}.

Definition erase_outcome (r : outcome tx_result) : outcome tx_result :=
  match r with
  | Ok res => Ok {| success := success res; res_id := res_id res;
                    res_task := erase_times (res_task res) |}
  | Throw e => Throw e
  end.

(** Two worlds that differ at most in clock readings: those stored in
    records and the number of readings taken. *)
Definition same_but_times (w1 w2 : World) : Prop :=
  erase_store (store w1) = erase_store (store w2) ∧ outbox w1 = outbox w2.

(** The key of the per-assignee index. *)
Definition assignee_key (a : string) : string := "tasks:assignee:" +:+ a.

Definition assignee_set (s : Store) (a : string) : gset string :=
  set_of s (assignee_key a).

(** The shape of a record stored under [task:<id>]: what [add_task] wrote
    and what the one later transition may have changed. *)
Record well_formed (id : string) (t : Task) : Prop := {
  wf_id : task_id t = id;
  wf_title : (String.length (task_title t) ≤ 140)%nat;
  wf_desc : (String.length (task_desc t) ≤ 1000)%nat;
  wf_open : task_status t = Open →
            task_completed_by t = None ∧ task_cancelled_by t = None;
  wf_completed : task_status t = Completed →
                 task_cancelled_by t = None ∧
                 ∃ who, task_completed_by t = Some who ∧
                        (task_creator t = who ∨ task_assignee t = Some who);
  wf_cancelled : task_status t = Cancelled →
                 task_completed_by t = None ∧
                 ∃ who, task_cancelled_by t = Some who
}.

(** The records of a store are well formed and the assignee index holds
    the ids of the tasks with that (non-empty) assignee. *)
Record records_ok (s : Store) : Prop := {
  ok_wf : ∀ id t, record_of s id = Some t → well_formed id t;
  ok_assignee : ∀ a id, id ∈ assignee_set s a ↔
                        a ≠ "" ∧ ∃ t, record_of s id = Some t ∧
                                      task_assignee t = Some a
}.

(** The notification of a transition of task [id] to status [st]. *)
Definition task_update (id : string) (st : status) : notification :=
  {| note_type := "task_update"; note_id := id; note_status := status_str st |}.

(** The notification a reported outcome stands for, if any. *)
Definition note_of (r : outcome tx_result) : option notification :=
  match r with
  | Ok res => Some (task_update (res_id res) (task_status (res_task res)))
  | Throw _ => None
  end.

(** ** The command line (first part of [src/index.js], lines 84-193)

    [parseArg] builds two regular expressions around the flag and returns
    the first capture of the quoted one, else of the plain one.  The flag
    is pasted into the pattern, so a flag is matched as it stands when it
    holds no character special to a regular expression ([literal_flag]),
    as the flags of the call sites do ([--title], [--desc], [--assignee],
    [--id], [--status], [--message]); [parseArg] below is the function on
    such flags.  [\s] and [trim] share their set of white space. *)

(** The double quote character (code 34). *)
Definition dquote : ascii := "034"%char.

(** The rest of [s] behind the literal prefix [p]. *)
Fixpoint strip_prefix (p s : string) : option string :=
  match p, s with
  | EmptyString, _ => Some s
  | String a p', String b s' =>
      if bool_decide (a = b) then strip_prefix p' s' else None
  | String _ _, EmptyString => None
  end.

(** [\s+]: one white space at least; being greedy and followed by
    something that is no white space, it takes the whole run. *)
Definition spaces1 (s : string) : option string :=
  match s with
  | String c s' => if is_white c then Some (trim_start s') else None
  | EmptyString => None
  end.

(** Any characters but a double quote, up to a closing double quote: the
    text before the first double quote. *)
Fixpoint until_quote (s : string) : option string :=
  match s with
  | EmptyString => None
  | String c s' =>
      if bool_decide (c = dquote) then Some EmptyString
      else String c <$> until_quote s'
  end.

(** A double quote, one character at least that is no double quote (the
    capture), a double quote. *)
Definition quoted_value (s : string) : option string :=
  match s with
  | String c s' =>
      if bool_decide (c = dquote)
      then match until_quote s' with
           | Some v => if bool_decide (v = "") then None else Some v
           | None => None
           end
      else None
  | EmptyString => None
  end.

(** The longest run of characters that are no white space. *)
Fixpoint non_spaces (s : string) : string :=
  match s with
  | String c s' => if is_white c then EmptyString else String c (non_spaces s')
  | EmptyString => EmptyString
  end.

(** [(\S+)] *)
Definition plain_value (s : string) : option string :=
  let v := non_spaces s in
  if bool_decide (v = "") then None else Some v.

(** The pattern [flag \s+ value] tried at the start of [s]. *)
Definition match_at (value : string → option string) (flag s : string)
    : option string :=
  match strip_prefix flag s with
  | Some rest =>
      match spaces1 rest with
      | Some rest' => value rest'
      | None => None
      end
  | None => None
  end.

(** [input.match(re)[1]]: the capture of the leftmost match. *)
Fixpoint first_match (m : string → option string) (s : string) : option string :=
  match m s with
  | Some v => Some v
  | None =>
      match s with
      | String _ s' => first_match m s'
      | EmptyString => None
      end
  end.

Definition parseArg (input flag : string) : option string :=
  match first_match (match_at quoted_value flag) input with
  | Some v => Some v
  | None => first_match (match_at plain_value flag) input
  end.

(** What the [line] handler asks for; what the peer answers is printed
    afterwards and is not part of the model. *)
Inductive cli_action :=
| JustPrompt
| PeerCommand (input : string)
| Goodbye
| PrintHelp
| Print (msg : string)
| SubmitAddTask (title desc : string) (assignee : option string)
| SubmitCompleteTask (id : string)
| SubmitCancelTask (id : string)
| ViewListTasks (status assignee : option string)
| SendChat (text : string).

(** [input.startsWith(p)] *)
Definition startsWith (input p : string) : bool := String.prefix p input.

(** The [rl.on('line', ...)] handler. *)
Definition on_line (line : string) : cli_action :=
  let input := trim line in
  if negb (truthy_str input) then JustPrompt else
  if startsWith input "/add_admin" || startsWith input "/add_indexer"
     || startsWith input "/set_auto_add_writers"
  then PeerCommand input else
  if bool_decide (input = "/exit") then Goodbye else
  if bool_decide (input = "/help") then PrintHelp else
  if startsWith input "/add_task" then
    let title := parseArg input "--title" in
    let desc := default "" (parseArg input "--desc") in
    let assignee := parseArg input "--assignee" in
    if negb (truthy_opt title) then Print "Error: --title is required"
    else SubmitAddTask (default "" title) desc assignee
  else if startsWith input "/complete_task" then
    let id := parseArg input "--id" in
    if negb (truthy_opt id) then Print "Error: --id is required"
    else SubmitCompleteTask (default "" id)
  else if startsWith input "/cancel_task" then
    let id := parseArg input "--id" in
    if negb (truthy_opt id) then Print "Error: --id is required"
    else SubmitCancelTask (default "" id)
  else if startsWith input "/list_tasks" then
    ViewListTasks (parseArg input "--status") (parseArg input "--assignee")
  else if startsWith input "/chat" then
    let text := parseArg input "--message" in
    if negb (truthy_opt text) then Print "Error: --message is required"
    else SendChat (default "" text)
  else Print ("Unknown command: " +:+ input +:+ ". Type /help for usage.").

(** The [params] of the [add_task] transaction the command line submits. *)
Definition cli_add_task_params (title desc : string) (assignee : option string)
    : add_task_params :=
  {| p_title := JStr title; p_desc := JStr desc; p_assignee := assignee |}.

(** Every character of [s] passes [p]. *)
Fixpoint all_chars (p : ascii → bool) (s : string) : bool :=
  match s with
  | EmptyString => true
  | String c s' => p c && all_chars p s'
  end.

Definition not_quote (c : ascii) : bool := negb (bool_decide (c = dquote)).

(** The characters that a pattern handed to [new RegExp] does not match
    as they stand. *)
Definition regexp_special (c : ascii) : bool :=
  match N_of_ascii c with
  | 36 | 40 | 41 | 42 | 43 | 46 | 63 | 91 | 92 | 93 | 94 | 123 | 124 | 125 => true
  | _ => false
  end%N.

Definition literal_flag (flag : string) : bool :=
  all_chars (λ c, negb (regexp_special c)) flag.

(** The flags [parseArg] is called with. *)
Definition cli_flags : list string :=
  ["--title"; "--desc"; "--assignee"; "--id"; "--status"; "--message"].

Definition not_white (c : ascii) : bool := negb (is_white c).

(** [line] with a double quote before and after. *)
Definition in_quotes (v : string) : string :=
  String dquote (v +:+ String dquote EmptyString).

(** The row the command line prints for a task of a [/list_tasks] answer
    (lines 157-160). *)

(** [s.slice(0, n)] *)
Definition slice0 (n : nat) (s : string) : string := String.substring 0 n s.

(** [s.padEnd(n)]: spaces on the right up to length [n]. *)
Definition padEnd (n : nat) (s : string) : string :=
  s +:+ repeat_char (n - String.length s) " ".

Definition table_row (t : Task) : string :=
  let aid := if truthy_opt (task_assignee t)
             then slice0 16 (default "" (task_assignee t)) +:+ "..."
             else "unassigned      " in
  slice0 8 (task_id t) +:+ "  " +:+ padEnd 12 (status_str (task_status t))
  +:+ " " +:+ aid +:+ "  " +:+ task_title t.

(** * Proofs *)

(** The scenario runs as the specification tells it. *)
Example scenario_outcomes :
  outcome_summary <$> fst (run scenario_clock scenario_admin scenario empty_world)
  = [ inr ("task_000001", Open);
      inl "Only the creator or assignee may complete this task";
      inr ("task_000001", Completed);
      inl "Task task_000001 is not open (status: completed)";
      inr ("task_000002", Open);
      inl "Only the creator or an admin may cancel this task";
      inr ("task_000002", Cancelled);
      inr ("task_000003", Open) ].
Proof. vm_compute. reflexivity. Qed.

Example scenario_stats :
  fst (stats scenario_world)
  = Ok {| s_total := 3; s_open := 1; s_completed := 1; s_cancelled := 1 |}.
Proof. vm_compute. reflexivity. Qed.

Example scenario_list :
  task_id <$> r_tasks (default (mkList [] 0)
                         (match fst (list_tasks None None scenario_world) with
                          | Ok r => Some r
                          | Throw _ => None
                          end))
  = ["task_000003"; "task_000002"; "task_000001"].
Proof. vm_compute. reflexivity. Qed.

(** Unfolds the monad and the calls into the runtime, leaving the store
    functions folded. *)
Ltac step_handler :=
  cbv beta iota zeta delta
    [mbind M_bind mret M_ret throw with_store
     state_get state_set state_increment state_sadd state_srem state_smembers
     date_now broadcast get_length call_trim js_gt or_default].

(** The guard [!title || typeof title !== 'string'] lets through the
    non-empty strings and nothing else. *)
Lemma title_guard v :
  negb (truthy v) || negb (bool_decide (typeof v = "string"))
  = match v with JStr t => bool_decide (t = "") | _ => true end.
Proof.
  destruct v as [| |b|n|t|items|props]; simpl; try done.
  - by destruct b.
  - by destruct (n =? 0).
  - by destruct (bool_decide (t = "")).
Qed.

Lemma title_cases v : title_missing v ∨ ∃ t, v = JStr t ∧ t ≠ "".
Proof.
  destruct v as [| |b|n|t|items|props]; simpl; auto.
  destruct (decide (t = "")); eauto.
Qed.

(** [longer_than] is the test [v.length > n] of the source passing. *)
Lemma longer_than_gt n v :
  longer_than n v
  ↔ no_primitive (length_of v) = false
    ∧ gt_number (length_of v) (Z.of_nat n) = true.
Proof.
  destruct v as [| |b|k|s|items|props]; simpl; try naive_solver.
  - rewrite Z.ltb_lt. split; [intros; split; [done|lia]|intros [_ ?]; lia].
  - rewrite Z.ltb_lt. split; [intros; split; [done|lia]|intros [_ ?]; lia].
Qed.

(** Runs [k] on the record stored for [id] in the concrete world [w]. *)
Ltac on_record w id k :=
  let o := eval vm_compute in (record_of (store w) id) in
  match o with
  | Some ?t => k t
  end.

Section Evaluation.
Variable now : nat → Z.

Lemma add_task_no_title signer params w :
  title_missing (p_title params) →
  add_task now signer params w = (Throw (Error "title is required"), w).
Proof.
  intros Hm. unfold add_task. rewrite title_guard.
  destruct (p_title params) as [| |b|n|t|items|props]; simpl in *; try done.
  by rewrite bool_decide_eq_true_2.
Qed.

(** [add_task] on a title that is a non-empty string, test by test. *)
Lemma add_task_eval signer t desc a w :
  t ≠ "" →
  add_task now signer (mkAddParams (JStr t) desc a) w
  = if 140 <? Z.of_nat (String.length t)
    then (Throw (Error "title exceeds 140 characters"), w)
    else match desc with
         | JNull =>
             (Throw (TypeError "Cannot read properties of null (reading 'length')"), w)
         | _ =>
             let d := or_default (JStr "") desc in
             if no_primitive (length_of d)
             then (Throw (TypeError "Cannot convert object to primitive value"), w)
             else if gt_number (length_of d) 1000
             then (Throw (Error "desc exceeds 1000 characters"), w)
             else match d with
                  | JStr s =>
                      let task := new_task now signer (task_seq (store w) + 1)
                                    t s a (ticks w) in
                      (Ok {| success := true; res_id := task_id task;
                             res_task := task |},
                       sent (task_id task) Open w
                         (add_task_store task a (store w)) (S (S (ticks w))))
                  | _ =>
                      (Throw (TypeError "desc.trim is not a function"),
                       {| store := store_increment "task_seq" (store w);
                          ticks := ticks w; outbox := outbox w |})
                  end
         end.
Proof.
  intros Ht. unfold add_task. rewrite title_guard. simpl.
  rewrite bool_decide_eq_false_2 by done. step_handler.
  cbn [length_of no_primitive gt_number].
  destruct (140 <? _); [done|].
  destruct desc as [| |b|n|d|items|props]; cbn [length_of no_primitive gt_number].
  all: try done.
  - destruct (1000 <? _); [done|].
    unfold sent, add_task_store. simpl. destruct (truthy_opt a); reflexivity.
  - destruct (1000 <? _); [done|].
    unfold sent, add_task_store. simpl. destruct (truthy_opt a); reflexivity.
  - by destruct (1000 <? _).
  - destruct (no_primitive _); [done|]. by destruct (gt_number _ _).
Qed.

End Evaluation.

Section ErrorsBeforeWrites.
Variable now : nat → Z.
Variable isAdmin : string → bool.

Lemma add_task_error signer params w msg w' :
  add_task now signer params w = (Throw (Error msg), w') →
  w' = w ∧ ∃ c, raised_as (Error msg) c.
Proof.
  destruct params as [title desc assignee].
  destruct (title_cases title) as [Hm|(t & -> & Ht)].
  { rewrite add_task_no_title by done. intros [= <- <-].
    split; [done|eexists; constructor]. }
  rewrite add_task_eval by done.
  repeat (simpl; case_match); simpl; try discriminate.
  all: intros [= <- <-]; (split; [done|]); eexists; constructor.
Qed.

End ErrorsBeforeWrites.

Section HandlerEquations.
Variable now : nat → Z.
Variable isAdmin : string → bool.

(** A successful [add_task], as one equation. *)
Lemma add_task_ok signer t desc d a w :
  t ≠ "" → (String.length t ≤ 140)%nat →
  desc_string desc = Some d → (String.length d ≤ 1000)%nat →
  let task := new_task now signer (task_seq (store w) + 1) t d a (ticks w) in
  add_task now signer (mkAddParams (JStr t) desc a) w
  = (Ok {| success := true; res_id := task_id task; res_task := task |},
     sent (task_id task) Open w (add_task_store task a (store w)) (S (S (ticks w)))).
Proof.
  intros Ht Hlt Hd Hld task. rewrite add_task_eval by done.
  destruct (Z.ltb_spec 140 (Z.of_nat (String.length t))); [lia|].
  destruct desc; simplify_eq/=; try done.
  by destruct (Z.ltb_spec 1000 (Z.of_nat (String.length d))); [lia|].
Qed.

(** Every success of [add_task] is of that form. *)
Lemma add_task_inv signer params w r w' :
  add_task now signer params w = (Ok r, w') →
  ∃ t d, p_title params = JStr t ∧ t ≠ "" ∧ (String.length t ≤ 140)%nat ∧
         desc_string (p_desc params) = Some d ∧ (String.length d ≤ 1000)%nat ∧
         let task := new_task now signer (task_seq (store w) + 1) t d
                       (p_assignee params) (ticks w) in
         r = {| success := true; res_id := task_id task; res_task := task |} ∧
         w' = sent (task_id task) Open w
                (add_task_store task (p_assignee params) (store w))
                (S (S (ticks w))).
Proof.
  destruct params as [title desc a]. intros H.
  assert (∃ t d, title = JStr t ∧ t ≠ "" ∧ (String.length t ≤ 140)%nat ∧
                 desc_string desc = Some d ∧ (String.length d ≤ 1000)%nat)
    as (t & d & -> & Ht & Hlt & Hd & Hld).
  { revert H. destruct (title_cases title) as [Hm|(t & -> & Ht)].
    { by rewrite add_task_no_title. }
    rewrite add_task_eval by done.
    destruct (Z.ltb_spec 140 (Z.of_nat (String.length t))); [discriminate|].
    destruct desc as [| |b|n|d|items|props]; simpl; try discriminate.
    - intros _. exists t, "". repeat split; simpl; auto with lia.
    - destruct (Z.ltb_spec 1000 (Z.of_nat (String.length d))); [discriminate|].
      intros _. exists t, d. repeat split; simpl; auto with lia.
    - by destruct (1000 <? _).
    - destruct (no_primitive _); [discriminate|]. by destruct (gt_number _ _). }
  exists t, d. rewrite (add_task_ok signer t desc d a w) in H by done.
  simpl in *. by simplify_eq.
Qed.

(** [complete_task], branch by branch. *)
Lemma complete_task_no_id signer w :
  complete_task now signer "" w = (Throw (Error "id is required"), w).
Proof. reflexivity. Qed.

Lemma complete_task_not_found signer id w :
  id ≠ "" → record_of (store w) id = None →
  complete_task now signer id w
  = (Throw (Error ("Task " +:+ id +:+ " not found")), w).
Proof.
  intros Hid Hrec. unfold complete_task, truthy_str, record_of in *.
  rewrite bool_decide_eq_false_2 by done. simpl. step_handler.
  by rewrite Hrec.
Qed.

Lemma complete_task_not_open signer id t w :
  id ≠ "" → record_of (store w) id = Some t → task_status t ≠ Open →
  complete_task now signer id w
  = (Throw (Error ("Task " +:+ id +:+ " is not open (status: "
                    +:+ status_str (task_status t) +:+ ")")), w).
Proof.
  intros Hid Hrec Hst. unfold complete_task, truthy_str, record_of in *.
  rewrite bool_decide_eq_false_2 by done. simpl. step_handler.
  rewrite Hrec. by rewrite (bool_decide_eq_false_2 _ Hst).
Qed.

Lemma complete_task_forbidden signer id t w :
  id ≠ "" → record_of (store w) id = Some t → task_status t = Open →
  task_creator t ≠ signer → task_assignee t ≠ Some signer →
  complete_task now signer id w
  = (Throw (Error "Only the creator or assignee may complete this task"), w).
Proof.
  intros Hid Hrec Hst Hc Ha. unfold complete_task, truthy_str, record_of in *.
  rewrite bool_decide_eq_false_2 by done. simpl. step_handler.
  rewrite Hrec, (bool_decide_eq_true_2 _ Hst). simpl.
  rewrite (bool_decide_eq_false_2 _ Hc). simpl.
  destruct (task_assignee t) as [x|]; simpl; [|done].
  rewrite bool_decide_eq_false_2; [done|congruence].
Qed.

Lemma complete_task_ok signer id t w :
  id ≠ "" → record_of (store w) id = Some t → task_status t = Open →
  task_creator t = signer ∨ task_assignee t = Some signer →
  let task := mark_completed t (now (ticks w)) signer in
  complete_task now signer id w
  = (Ok {| success := true; res_id := id; res_task := task |},
     sent id Completed w (move_task_store id task (store w)) (S (ticks w))).
Proof.
  intros Hid Hrec Hst Hauth task.
  unfold complete_task, truthy_str, record_of in *.
  rewrite bool_decide_eq_false_2 by done. simpl. step_handler.
  rewrite Hrec, (bool_decide_eq_true_2 _ Hst). simpl.
  assert (bool_decide (task_creator t = signer)
          || strict_eq_opt (task_assignee t) signer = true) as ->; [|done].
  destruct Hauth as [Hc|Ha].
  - by rewrite (bool_decide_eq_true_2 _ Hc).
  - rewrite Ha. simpl. rewrite (bool_decide_eq_true_2 (signer = signer)) by done.
    apply orb_true_r.
Qed.

(** [cancel_task], branch by branch. *)
Lemma cancel_task_no_id signer w :
  cancel_task now isAdmin signer "" w = (Throw (Error "id is required"), w).
Proof. reflexivity. Qed.

Lemma cancel_task_not_found signer id w :
  id ≠ "" → record_of (store w) id = None →
  cancel_task now isAdmin signer id w
  = (Throw (Error ("Task " +:+ id +:+ " not found")), w).
Proof.
  intros Hid Hrec. unfold cancel_task, truthy_str, record_of in *.
  rewrite bool_decide_eq_false_2 by done. simpl. step_handler.
  by rewrite Hrec.
Qed.

Lemma cancel_task_not_open signer id t w :
  id ≠ "" → record_of (store w) id = Some t → task_status t ≠ Open →
  cancel_task now isAdmin signer id w
  = (Throw (Error ("Task " +:+ id +:+ " is not open")), w).
Proof.
  intros Hid Hrec Hst. unfold cancel_task, truthy_str, record_of in *.
  rewrite bool_decide_eq_false_2 by done. simpl. step_handler.
  rewrite Hrec. by rewrite (bool_decide_eq_false_2 _ Hst).
Qed.

Lemma cancel_task_forbidden signer id t w :
  id ≠ "" → record_of (store w) id = Some t → task_status t = Open →
  task_creator t ≠ signer → isAdmin signer = false →
  cancel_task now isAdmin signer id w
  = (Throw (Error "Only the creator or an admin may cancel this task"), w).
Proof.
  intros Hid Hrec Hst Hc Ha. unfold cancel_task, truthy_str, record_of in *.
  rewrite bool_decide_eq_false_2 by done. simpl. step_handler.
  rewrite Hrec, (bool_decide_eq_true_2 _ Hst). simpl.
  by rewrite (bool_decide_eq_false_2 _ Hc), Ha.
Qed.

Lemma cancel_task_ok signer id t w :
  id ≠ "" → record_of (store w) id = Some t → task_status t = Open →
  task_creator t = signer ∨ isAdmin signer = true →
  let task := mark_cancelled t (now (ticks w)) signer in
  cancel_task now isAdmin signer id w
  = (Ok {| success := true; res_id := id; res_task := task |},
     sent id Cancelled w (move_task_store id task (store w)) (S (ticks w))).
Proof.
  intros Hid Hrec Hst Hauth task.
  unfold cancel_task, truthy_str, record_of in *.
  rewrite bool_decide_eq_false_2 by done. simpl. step_handler.
  rewrite Hrec, (bool_decide_eq_true_2 _ Hst). simpl.
  assert (negb (bool_decide (task_creator t = signer)) && negb (isAdmin signer)
          = false) as ->; [|done].
  destruct Hauth as [Hc|Ha].
  - by rewrite (bool_decide_eq_true_2 _ Hc).
  - rewrite Ha. apply andb_false_r.
Qed.

(** The five ways [complete_task] can go. *)
Lemma complete_task_cases signer id w :
  let res := complete_task now signer id w in
  (id = "" ∧ res = (Throw (Error "id is required"), w)) ∨
  (id ≠ "" ∧ record_of (store w) id = None ∧
   res = (Throw (Error ("Task " +:+ id +:+ " not found")), w)) ∨
  (∃ t, id ≠ "" ∧ record_of (store w) id = Some t ∧ task_status t ≠ Open ∧
        res = (Throw (Error ("Task " +:+ id +:+ " is not open (status: "
                              +:+ status_str (task_status t) +:+ ")")), w)) ∨
  (∃ t, id ≠ "" ∧ record_of (store w) id = Some t ∧ task_status t = Open ∧
        task_creator t ≠ signer ∧ task_assignee t ≠ Some signer ∧
        res = (Throw (Error "Only the creator or assignee may complete this task"),
               w)) ∨
  (∃ t, id ≠ "" ∧ record_of (store w) id = Some t ∧ task_status t = Open ∧
        (task_creator t = signer ∨ task_assignee t = Some signer) ∧
        let task := mark_completed t (now (ticks w)) signer in
        res = (Ok {| success := true; res_id := id; res_task := task |},
               sent id Completed w (move_task_store id task (store w))
                 (S (ticks w)))).
Proof.
  intros res. subst res.
  destruct (decide (id = "")) as [->|Hid]; [left; rewrite complete_task_no_id; auto|].
  destruct (record_of (store w) id) as [t|] eqn:Hrec;
    [|right; left; rewrite complete_task_not_found by done; auto].
  destruct (decide (task_status t = Open)) as [Hst|Hst];
    [|right; right; left; exists t; rewrite (complete_task_not_open _ _ t) by done; auto].
  destruct (decide (task_creator t = signer)) as [Hc|Hc];
    [do 4 right; exists t; rewrite (complete_task_ok _ _ t) by auto; auto 10|].
  destruct (decide (task_assignee t = Some signer)) as [Ha|Ha];
    [do 4 right; exists t; rewrite (complete_task_ok _ _ t) by auto; auto 10|].
  do 3 right; left; exists t. rewrite (complete_task_forbidden _ _ t) by done. auto 10.
Qed.

(** The five ways [cancel_task] can go. *)
Lemma cancel_task_cases signer id w :
  let res := cancel_task now isAdmin signer id w in
  (id = "" ∧ res = (Throw (Error "id is required"), w)) ∨
  (id ≠ "" ∧ record_of (store w) id = None ∧
   res = (Throw (Error ("Task " +:+ id +:+ " not found")), w)) ∨
  (∃ t, id ≠ "" ∧ record_of (store w) id = Some t ∧ task_status t ≠ Open ∧
        res = (Throw (Error ("Task " +:+ id +:+ " is not open")), w)) ∨
  (∃ t, id ≠ "" ∧ record_of (store w) id = Some t ∧ task_status t = Open ∧
        task_creator t ≠ signer ∧ isAdmin signer = false ∧
        res = (Throw (Error "Only the creator or an admin may cancel this task"),
               w)) ∨
  (∃ t, id ≠ "" ∧ record_of (store w) id = Some t ∧ task_status t = Open ∧
        (task_creator t = signer ∨ isAdmin signer = true) ∧
        let task := mark_cancelled t (now (ticks w)) signer in
        res = (Ok {| success := true; res_id := id; res_task := task |},
               sent id Cancelled w (move_task_store id task (store w))
                 (S (ticks w)))).
Proof.
  intros res. subst res.
  destruct (decide (id = "")) as [->|Hid]; [left; rewrite cancel_task_no_id; auto|].
  destruct (record_of (store w) id) as [t|] eqn:Hrec;
    [|right; left; rewrite cancel_task_not_found by done; auto].
  destruct (decide (task_status t = Open)) as [Hst|Hst];
    [|right; right; left; exists t; rewrite (cancel_task_not_open _ _ t) by done; auto].
  destruct (decide (task_creator t = signer)) as [Hc|Hc];
    [do 4 right; exists t; rewrite (cancel_task_ok _ _ t) by auto; auto 10|].
  destruct (isAdmin signer) eqn:Ha;
    [do 4 right; exists t; rewrite (cancel_task_ok _ _ t) by auto; auto 10|].
  do 3 right; left; exists t. rewrite (cancel_task_forbidden _ _ t) by done. auto 10.
Qed.

(** A fault of the engine inside [add_task] leaves the world alone or with
    the counter already incremented. *)
Lemma add_task_fault signer params w msg w' :
  add_task now signer params w = (Throw (TypeError msg), w') →
  w' = w ∨
  w' = {| store := store_increment "task_seq" (store w);
          ticks := ticks w; outbox := outbox w |}.
Proof.
  destruct params as [title desc assignee].
  destruct (title_cases title) as [Hm|(t & -> & Ht)].
  { by rewrite add_task_no_title. }
  rewrite add_task_eval by done.
  repeat (simpl; case_match); simpl; try discriminate.
  all: intros [= <- <-]; auto.
Qed.

(** The six ways [add_task] can go. *)
Lemma add_task_cases signer params w :
  let res := add_task now signer params w in
  (title_missing (p_title params) ∧
   res = (Throw (Error "title is required"), w)) ∨
  (∃ t, p_title params = JStr t ∧ t ≠ "" ∧ (140 < String.length t)%nat ∧
        res = (Throw (Error "title exceeds 140 characters"), w)) ∨
  (∃ t, p_title params = JStr t ∧ t ≠ "" ∧ (String.length t ≤ 140)%nat ∧
        longer_than 1000 (p_desc params) ∧
        res = (Throw (Error "desc exceeds 1000 characters"), w)) ∨
  (∃ t msg, p_title params = JStr t ∧ t ≠ "" ∧ (String.length t ≤ 140)%nat ∧
            faults_at_length (p_desc params) ∧
            res = (Throw (TypeError msg), w)) ∨
  (∃ t msg, p_title params = JStr t ∧ t ≠ "" ∧ (String.length t ≤ 140)%nat ∧
            faults_at_trim (p_desc params) ∧
            res = (Throw (TypeError msg),
                   {| store := store_increment "task_seq" (store w);
                      ticks := ticks w; outbox := outbox w |})) ∨
  (∃ t d, p_title params = JStr t ∧ t ≠ "" ∧ (String.length t ≤ 140)%nat ∧
          desc_string (p_desc params) = Some d ∧ (String.length d ≤ 1000)%nat ∧
          let task := new_task now signer (task_seq (store w) + 1) t d
                        (p_assignee params) (ticks w) in
          res = (Ok {| success := true; res_id := task_id task; res_task := task |},
                 sent (task_id task) Open w
                   (add_task_store task (p_assignee params) (store w))
                   (S (S (ticks w))))).
Proof.
  intros res. subst res. destruct params as [title desc a]. simpl.
  destruct (title_cases title) as [Hm|(t & -> & Ht)].
  { left. split; [done|]. by apply add_task_no_title. }
  right. rewrite add_task_eval by done.
  destruct (Z.ltb_spec 140 (Z.of_nat (String.length t))) as [Hlt|Hlt].
  { left. exists t. repeat split; [done|lia]. }
  right. assert (String.length t ≤ 140)%nat as Hl by lia.
  destruct (desc_string desc) as [d|] eqn:Hd.
  - assert (desc ≠ JNull ∧ or_default (JStr "") desc = JStr d) as [Hn ->].
    { by destruct desc; simplify_eq/=. }
    assert (longer_than 1000 desc ↔ (1000 < String.length d)%nat) as Hlong.
    { destruct desc; simplify_eq/=; [split; [done|lia]|done]. }
    cbn [length_of no_primitive gt_number].
    destruct (Z.ltb_spec 1000 (Z.of_nat (String.length d))).
    + left. exists t. repeat split; [done..|apply Hlong; lia|].
      by destruct desc.
    + do 3 right. exists t, d. repeat split; [done..|lia|].
      by destruct desc.
  - unfold faults_at_length, faults_at_trim. rewrite Hd.
    assert (or_default (JStr "") desc = desc) as -> by (by destruct desc).
    destruct (longer_than_gt 1000 desc) as [Hlong1 Hlong2].
    destruct desc as [| |b|n|d|items|props]; try discriminate Hd.
    + right; left. eexists t, _. repeat split; eauto.
    + right; right; left. eexists t, _. repeat split; eauto.
    + right; right; left. eexists t, _. repeat split; eauto.
    + destruct (no_primitive (length_of (JArr items))) eqn:Hp; [done|].
      destruct (gt_number (length_of (JArr items)) 1000) eqn:Hg.
      * left. exists t. repeat split; auto.
      * right; right; left. eexists t, _. repeat split; eauto.
    + destruct (no_primitive (length_of (JObj props))) eqn:Hp.
      * right; left. eexists t, _. repeat split; eauto.
      * destruct (gt_number (length_of (JObj props)) 1000) eqn:Hg.
        -- left. exists t. repeat split; auto.
        -- right; right; left. eexists t, _. repeat split; eauto.
   Qed.

End HandlerEquations.

(** ** The store after each write *)

Lemma set_of_store_sadd k x s k' :
  set_of (store_sadd k x s) k'
  = if decide (k = k') then {[x]} ∪ set_of s k else set_of s k'.
Proof.
  unfold set_of at 1, store_sadd; simpl. rewrite lookup_insert.
  by case_decide; simplify_eq.
Qed.

Lemma set_of_store_srem k x s k' :
  set_of (store_srem k x s) k'
  = if decide (k = k') then set_of s k ∖ {[x]} else set_of s k'.
Proof.
  unfold set_of at 1, store_srem; simpl. rewrite lookup_insert.
  by case_decide; simplify_eq.
Qed.

Lemma set_of_store_set k t s k' : set_of (store_set k t s) k' = set_of s k'.
Proof. reflexivity. Qed.

Lemma set_of_store_increment k s k' :
  set_of (store_increment k s) k' = set_of s k'.
Proof. reflexivity. Qed.

Lemma counter_of_store_increment k s :
  counter_of (store_increment k s) k = (counter_of s k + 1)%N.
Proof. unfold counter_of at 1, store_increment; simpl. by rewrite lookup_insert_eq. Qed.

Lemma status_key_inj st st' : status_key st = status_key st' → st = st'.
Proof. by destruct st, st'. Qed.

Lemma status_key_str st : "tasks:" +:+ status_str st = status_key st.
Proof. by destruct st. Qed.

Lemma assignee_key_not_all a : "tasks:assignee:" +:+ a ≠ "tasks:all".
Proof. discriminate. Qed.

Lemma assignee_key_not_status a st : "tasks:assignee:" +:+ a ≠ status_key st.
Proof. destruct st; discriminate. Qed.

Lemma record_key_inj id id' : "task:" +:+ id = "task:" +:+ id' → id = id'.
Proof. apply (inj (String.app "task:")). Qed.

Lemma all_ids_add_task task a s :
  all_ids (add_task_store task a s) = {[task_id task]} ∪ all_ids s.
Proof.
  unfold all_ids, add_task_store.
  destruct (truthy_opt a); rewrite ?set_of_store_sadd;
    repeat (case_decide; try done).
  all: by destruct (assignee_key_not_all (default "" a)).
Qed.

Lemma status_set_add_task task a s st :
  status_set (add_task_store task a s) st
  = if decide (st = Open) then {[task_id task]} ∪ status_set s Open
    else status_set s st.
Proof.
  unfold status_set, add_task_store.
  destruct st; unfold status_key;
    destruct (truthy_opt a); rewrite ?set_of_store_sadd.
  all: repeat case_decide; try done; try discriminate.

Qed.

Lemma record_of_add_task task a s id :
  record_of (add_task_store task a s) id
  = if decide (id = task_id task) then Some task else record_of s id.
Proof.
  unfold record_of, add_task_store.
  assert (∀ s', records (if truthy_opt a
                         then store_sadd ("tasks:assignee:" +:+ default "" a)
                                (task_id task) s' else s') = records s') as ->
    by (intros; by destruct (truthy_opt a)).
  simpl. rewrite lookup_insert. case_decide as Hk.
  - apply record_key_inj in Hk as <-. by rewrite decide_True.
  - rewrite decide_False; [done|congruence].
Qed.

Lemma task_seq_add_task task a s :
  task_seq (add_task_store task a s) = (task_seq s + 1)%N.
Proof.
  unfold task_seq, add_task_store.
  assert (∀ s', counter_of (if truthy_opt a
                         then store_sadd ("tasks:assignee:" +:+ default "" a)
                                (task_id task) s' else s') "task_seq"
                = counter_of s' "task_seq") as ->
    by (intros; by destruct (truthy_opt a)).
  apply (counter_of_store_increment "task_seq").
Qed.

Lemma all_ids_move_task id task s :
  all_ids (move_task_store id task s) = all_ids s.
Proof.
  unfold all_ids, move_task_store.
  rewrite set_of_store_sadd, !set_of_store_srem.
  destruct (task_status task); simpl; repeat case_decide; done.
Qed.

Lemma status_set_move_task id task s st :
  task_status task ≠ Open →
  status_set (move_task_store id task s) st
  = if decide (st = task_status task) then {[id]} ∪ status_set s st
    else if decide (st = Open) then status_set s Open ∖ {[id]}
    else status_set s st.
Proof.
  intros Hst. unfold status_set, move_task_store.
  rewrite set_of_store_sadd, !set_of_store_srem.
  destruct (task_status task), st; simpl; repeat case_decide; done.
Qed.

Lemma record_of_move_task id task s id' :
  record_of (move_task_store id task s) id'
  = if decide (id' = id) then Some task else record_of s id'.
Proof.
  unfold record_of, move_task_store. simpl. rewrite lookup_insert.
  case_decide as Hk.
  - apply record_key_inj in Hk as <-. by rewrite decide_True.
  - rewrite decide_False; [done|congruence].
Qed.

Lemma task_seq_move_task id task s :
  task_seq (move_task_store id task s) = task_seq s.
Proof. reflexivity. Qed.

(** ** Task ids: padding, digits and injectivity *)

Lemma app_cons c s s' : String c s +:+ s' = String c (s +:+ s').
Proof. reflexivity. Qed.

Lemma app_nil_l s : "" +:+ s = s.
Proof. reflexivity. Qed.

Lemma app_length s1 s2 :
  String.length (s1 +:+ s2) = (String.length s1 + String.length s2)%nat.
Proof. induction s1 as [|c s1 IH]; [done|]. rewrite app_cons. simpl. by rewrite IH. Qed.

Lemma repeat_char_length n c : String.length (repeat_char n c) = n.
Proof. induction n; simpl; congruence. Qed.

Lemma padStart_length n c s :
  String.length (padStart n c s) = Nat.max n (String.length s).
Proof. unfold padStart. rewrite app_length, repeat_char_length. lia. Qed.

(** The decimal numeral of a positive number does not start with a zero. *)
Lemma pretty_N_go_head n s :
  (0 < n)%N → ∃ c s', pretty_N_go n s = String c s' ∧ c ≠ "0"%char.
Proof.
  revert s. induction (N.lt_wf_0 n) as [n _ IH]; intros s Hn.
  rewrite pretty_N_go_step by done.
  destruct (decide (n < 10)%N) as [Hlt|Hge].
  - rewrite N.div_small, pretty_N_go_0 by done.
    rewrite N.mod_small by done. eexists _, _; split; [done|].
    assert (n = 1 ∨ n = 2 ∨ n = 3 ∨ n = 4 ∨ n = 5 ∨ n = 6
            ∨ n = 7 ∨ n = 8 ∨ n = 9)%N as Hcases by lia.
    repeat (destruct Hcases as [->|Hcases]; [done|]). by subst.
  - apply IH.
    + apply N.div_lt; lia.
    + apply N.div_str_pos; lia.
Qed.

Lemma pretty_N_head (n : N) :
  (0 < n)%N → ∃ c s', pretty n = String c s' ∧ c ≠ "0"%char.
Proof.
  intros Hn. unfold pretty, pretty_N. rewrite decide_False by lia.
  by apply pretty_N_go_head.
Qed.

Lemma zeros_app_inj k k' c1 r1 c2 r2 :
  c1 ≠ "0"%char → c2 ≠ "0"%char →
  repeat_char k "0" +:+ String c1 r1 = repeat_char k' "0" +:+ String c2 r2 →
  String c1 r1 = String c2 r2.
Proof.
  intros H1 H2. revert k'. induction k as [|k IH]; intros [|k']; simpl;
    rewrite ?app_cons, ?app_nil_l; intros Heq.
  - done.
  - congruence.
  - congruence.
  - injection Heq as Heq. by apply (IH k').
Qed.

Lemma format_task_id_inj n m :
  (0 < n)%N → (0 < m)%N → format_task_id n = format_task_id m → n = m.
Proof.
  intros Hn Hm Heq. apply (inj (String.app "task_")) in Heq.
  destruct (pretty_N_head n Hn) as (c1 & r1 & E1 & Hc1).
  destruct (pretty_N_head m Hm) as (c2 & r2 & E2 & Hc2).
  unfold padStart in Heq. rewrite E1, E2 in Heq.
  apply zeros_app_inj in Heq; [|done..].
  apply (inj pretty). congruence.
Qed.

Lemma pretty_N_go_length k n s :
  (n < 10 ^ N.of_nat k)%N →
  (String.length (pretty_N_go n s) ≤ k + String.length s)%nat.
Proof.
  revert n s. induction k as [|k IH]; intros n s Hn.
  - assert (n = 0%N) as -> by (simpl in Hn; lia). by rewrite pretty_N_go_0.
  - destruct (decide (n = 0%N)) as [->|Hn0]; [rewrite pretty_N_go_0; lia|].
    rewrite pretty_N_go_step by lia.
    etrans; [apply IH|simpl; lia].
    apply N.Div0.div_lt_upper_bound.
    rewrite Nat2N.inj_succ, N.pow_succ_r' in Hn. lia.
Qed.

Lemma pretty_N_length_6 (n : N) :
  (n < 1000000)%N → (String.length (pretty n) ≤ 6)%nat.
Proof.
  intros Hn. unfold pretty, pretty_N. case_decide; [simpl; lia|].
  pose proof (pretty_N_go_length 6 n "" Hn) as H'. simpl in H'. lia.
Qed.

(** An id is [task_] and at least six digits; exactly six while the counter
    value is below one million. *)
Lemma format_task_id_digits n :
  ∃ digits, format_task_id n = "task_" +:+ digits ∧
            digits = padStart 6 "0" (pretty n) ∧
            (6 ≤ String.length digits)%nat ∧
            ((n < 1000000)%N → String.length digits = 6%nat).
Proof.
  eexists; split; [done|]. split; [done|]. rewrite padStart_length. split; [lia|].
  intros Hn. pose proof (pretty_N_length_6 n Hn). lia.
Qed.

(** ** Index consistency is kept by every write pattern of the handlers *)

Lemma consistent_empty : consistent empty_store.
Proof.
  split; unfold all_ids, status_set, record_of, set_of; simpl.
  - intros id. rewrite !lookup_empty. simpl. split; [set_solver|].
    by intros [? ?].
  - intros id t. by rewrite lookup_empty.
  - intros st id. rewrite lookup_empty. set_solver.
  - intros id. rewrite lookup_empty. set_solver.
Qed.

Lemma consistent_increment s :
  consistent s → consistent (store_increment "task_seq" s).
Proof.
  intros [Hrec Hst Hsub Hseq]. split; try done.
  intros id Hid. destruct (Hseq id Hid) as (n & Hn & ->).
  exists n. split; [|done]. unfold task_seq in *.
  rewrite counter_of_store_increment. lia.
Qed.

Lemma fresh_id s :
  consistent s → format_task_id (task_seq s + 1) ∉ all_ids s.
Proof.
  intros Hs Hin. destruct (cons_seq s Hs _ Hin) as (n & Hn & Heq).
  apply format_task_id_inj in Heq; lia.
Qed.

Lemma consistent_add_task task a s :
  consistent s →
  task_id task = format_task_id (task_seq s + 1) → task_status task = Open →
  consistent (add_task_store task a s).
Proof.
  intros Hs Hid Hst. pose proof (fresh_id s Hs) as Hfresh.
  rewrite <-Hid in Hfresh. destruct Hs as [Hrec Hstat Hsub Hseq].
  split.
  - intros id. rewrite all_ids_add_task, record_of_add_task.
    case_decide as Heq; [subst; split; [eauto|set_solver]|].
    rewrite <-Hrec. set_solver.
  - intros id t. rewrite record_of_add_task.
    case_decide as Heq; intros Ht st; rewrite status_set_add_task.
    + simplify_eq. case_decide as Hop; [subst; split; [done|set_solver]|].
      split; [|congruence]. intros Hin. destruct Hfresh. by eapply Hsub.
    + case_decide as Hop; [subst|by apply Hstat].
      rewrite <-(Hstat id t Ht Open). set_solver.
  - intros st id. rewrite status_set_add_task, all_ids_add_task.
    case_decide; [subst|]; intros Hin; [|apply Hsub in Hin; set_solver].
    apply elem_of_union in Hin as [Hin|Hin]; [set_solver|].
    apply Hsub in Hin. set_solver.
  - intros id. rewrite all_ids_add_task, task_seq_add_task.
    intros [Hin|Hin]%elem_of_union.
    + apply elem_of_singleton in Hin as ->. exists (task_seq s + 1)%N.
      split; [lia|done].
    + destruct (Hseq id Hin) as (n & Hn & ->). exists n. split; [lia|done].
Qed.

Lemma consistent_move_task id t task s :
  consistent s →
  record_of s id = Some t → task_status t = Open → task_status task ≠ Open →
  consistent (move_task_store id task s).
Proof.
  intros [Hrec Hstat Hsub Hseq] Ht Hopen Hst.
  assert (id ∈ all_ids s) as Hall by (apply Hrec; eauto).
  split.
  - intros id'. rewrite all_ids_move_task, record_of_move_task.
    case_decide; [subst; split; eauto|apply Hrec].
  - intros id' t'. rewrite record_of_move_task.
    case_decide as Heq; intros Ht' st; rewrite status_set_move_task by done.
    + simplify_eq. case_decide as H1; [subst; split; [done|set_solver]|].
      case_decide as H2; [subst; split; [set_solver|congruence]|].
      rewrite (Hstat id t Ht st). split; congruence.
    + rewrite <-(Hstat id' t' Ht' st).
      repeat case_decide; subst; set_solver.
  - intros st id'. rewrite status_set_move_task, all_ids_move_task by done.
    repeat case_decide; subst; intros Hin.
    + apply elem_of_union in Hin as [Hin|Hin]; [set_solver|by eapply Hsub].
    + apply (Hsub Open). set_solver.
    + by eapply Hsub.
  - intros id'. rewrite all_ids_move_task. apply Hseq.
Qed.

(** ** One operation of the log *)

(** What [apply] can do to the store. *)
Lemma apply_store_cases now isAdmin o w r w' :
  apply now isAdmin o w = (r, w') →
  (store w' = store w ∧ created_by o r = []) ∨
  (store w' = store_increment "task_seq" (store w) ∧ created_by o r = []) ∨
  (∃ task a, store w' = add_task_store task a (store w) ∧
             task_id task = format_task_id (task_seq (store w) + 1) ∧
             task_status task = Open ∧ created_by o r = [task_id task]) ∨
  (∃ id t task, store w' = move_task_store id task (store w) ∧
                record_of (store w) id = Some t ∧ task_status t = Open ∧
                task_status task ≠ Open ∧ created_by o r = []).
Proof.
  destruct o as [signer params|signer id|signer id]; simpl; intros H.
  - destruct r as [res|[msg|msg]].
    + apply add_task_inv in H as (t & d & _ & _ & _ & _ & _ & -> & ->).
      right; right; left. by eexists _, _.
    + apply add_task_error in H as [-> _]. by left.
    + apply add_task_fault in H as [->| ->]; [by left|by right; left].
  - destruct (complete_task_cases now signer id w)
      as [[_ E]|[(_ & _ & E)|[(t & _ & _ & _ & E)|[(t & _ & _ & _ & _ & _ & E)
          |(t & _ & Hrec & Hst & _ & E)]]]]; simpl in E;
      rewrite E in H; simplify_eq; try by left.
    do 3 right. by exists id, t, (mark_completed t (now (ticks w)) signer).
  - destruct (cancel_task_cases now isAdmin signer id w)
      as [[_ E]|[(_ & _ & E)|[(t & _ & _ & _ & E)|[(t & _ & _ & _ & _ & _ & E)
          |(t & _ & Hrec & Hst & _ & E)]]]]; simpl in E;
      rewrite E in H; simplify_eq; try by left.
    do 3 right. by exists id, t, (mark_cancelled t (now (ticks w)) signer).
Qed.

Lemma apply_consistent now isAdmin o w r w' :
  consistent (store w) → apply now isAdmin o w = (r, w') → consistent (store w').
Proof.
  intros Hs H. apply apply_store_cases in H
    as [[-> _]|[[-> _]|[(task & a & -> & Hid & Hst & _)
        |(id & t & task & -> & Hrec & Hop & Hst & _)]]].
  - done.
  - by apply consistent_increment.
  - by apply consistent_add_task.
  - by eapply consistent_move_task.
Qed.

(** Ids never leave [tasks:all], and the counter never goes back. *)
Lemma apply_monotone now isAdmin o w r w' :
  apply now isAdmin o w = (r, w') →
  all_ids (store w) ⊆ all_ids (store w') ∧
  (task_seq (store w) ≤ task_seq (store w'))%N.
Proof.
  intros H. apply apply_store_cases in H
    as [[-> _]|[[-> _]|[(task & a & -> & Hid & Hst & _)
        |(id & t & task & -> & Hrec & Hop & Hst & _)]]].
  - done.
  - split; [done|]. unfold task_seq. rewrite counter_of_store_increment. lia.
  - rewrite all_ids_add_task, task_seq_add_task. split; [set_solver|lia].
  - rewrite all_ids_move_task, task_seq_move_task. done.
Qed.

Lemma history_consistent w ids : history w ids → consistent (store w).
Proof.
  induction 1 as [|w ids now isAdmin o r w' _ IH H].
  - apply consistent_empty.
  - by eapply apply_consistent.
Qed.

(** The ids created along a history are built from strictly increasing
    counter values, none above the current counter. *)
Lemma history_counters w ids :
  history w ids →
  ∃ ns : list N,
    ids = format_task_id <$> ns ∧
    StronglySorted (λ a b, (b < a)%N) ns ∧
    Forall (λ n, (1 ≤ n ≤ task_seq (store w))%N) ns.
Proof.
  induction 1 as [|w ids now isAdmin o r w' _ (ns & -> & Hsort & Hall) H].
  - exists []. repeat split; constructor.
  - pose proof (apply_monotone _ _ _ _ _ _ H) as [_ Hle].
    apply apply_store_cases in H
      as [[_ ->]|[[_ ->]|[(task & a & E & Hid & _ & ->)
          |(id & t & task & _ & _ & _ & _ & ->)]]]; simpl.
    1,2,4: exists ns; repeat split; [done|];
      eapply Forall_impl; [done|]; simpl; lia.
    exists ((task_seq (store w) + 1)%N :: ns). rewrite Hid, E, task_seq_add_task.
    repeat split.
    + constructor; [done|]. eapply Forall_impl; [done|]. simpl; lia.
    + constructor; [lia|]. eapply Forall_impl; [done|]. simpl; lia.
Qed.

Lemma history_created w ids :
  history w ids → ∀ id, id ∈ ids → id ∈ all_ids (store w).
Proof.
  induction 1 as [|w ids now isAdmin o r w' _ IH H]; intros id Hin.
  - by apply elem_of_nil in Hin.
  - pose proof (apply_monotone _ _ _ _ _ _ H) as [Hsub _].
    apply elem_of_app in Hin as [Hin|Hin]; [|by apply Hsub, IH].
    apply apply_store_cases in H
      as [[_ E]|[[_ E]|[(task & a & -> & _ & _ & E)
          |(? & ? & ? & _ & _ & _ & _ & E)]]]; rewrite E in Hin;
      try by apply elem_of_nil in Hin.
    rewrite all_ids_add_task. set_solver.
Qed.

(** * The claims *)

Lemma raised_as_Error e c : raised_as e c → ∃ msg, e = Error msg.
Proof. destruct 1; eauto. Qed.

Lemma apply_error now isAdmin o w msg w' :
  apply now isAdmin o w = (Throw (Error msg), w') →
  w' = w ∧ ∃ c, raised_as (Error msg) c.
Proof.
  destruct o as [signer params|signer id|signer id]; simpl; intros H.
  - by eapply add_task_error.
  - destruct (complete_task_cases now signer id w)
      as [[_ E]|[(_ & _ & E)|[(t & _ & _ & _ & E)|[(t & _ & _ & _ & _ & _ & E)
          |(t & _ & _ & _ & _ & E)]]]]; simpl in E;
      rewrite E in H; simplify_eq; (split; [done|eexists; constructor]).
  - destruct (cancel_task_cases now isAdmin signer id w)
      as [[_ E]|[(_ & _ & E)|[(t & _ & _ & _ & E)|[(t & _ & _ & _ & _ & _ & E)
          |(t & _ & _ & _ & _ & E)]]]]; simpl in E;
      rewrite E in H; simplify_eq; (split; [done|eexists; constructor]).
Qed.

(** C8: whenever [add_task], [complete_task] or [cancel_task] raises a
    ValidationError, NotFoundError, InvalidStateError or
    AuthorizationError, nothing has been written yet: the world after the
    throw, with its store, its [task_seq] counter and every index set, is
    the world before the operation.  Every [Error] the handlers throw
    belongs to one of the four classes. *)
Theorem errors_before_first_write now isAdmin o w e w' :
  apply now isAdmin o w = (Throw e, w') →
  (∀ c, raised_as e c → w' = w) ∧
  (∀ msg, e = Error msg → w' = w ∧ ∃ c, raised_as e c).
Proof.
  intros H. split.
  - intros c [msg ->]%raised_as_Error. by apply apply_error in H as [-> _].
  - intros msg ->. by apply apply_error in H.
Qed.

Lemma errors_before_first_write_witness :
  let w := snd (run scenario_clock scenario_admin [AddTask "A" write_spec]
                  empty_world) in
  snd (apply scenario_clock scenario_admin (CompleteTask "B" "task_000001") w) = w.
Proof.
  intros w.
  refine (proj1 (errors_before_first_write scenario_clock scenario_admin
                   (CompleteTask "B" "task_000001") w
                   (Error "Only the creator or assignee may complete this task")
                   _ _) AuthorizationError complete_forbidden).
  vm_compute. reflexivity.
Defined.




(** C9: [add_task] checks emptiness and the 140/1000 limits on the
    untrimmed input and stores the trimmed strings.  A title of three
    spaces passes validation and is stored as the empty string; a title of
    141 code units whose trimmed length is 140 is rejected. *)
Theorem validation_before_trim now signer a w :
  (∀ t desc d,
     t ≠ "" → (String.length t ≤ 140)%nat →
     desc_string desc = Some d → (String.length d ≤ 1000)%nat →
     ∃ r w', add_task now signer (mkAddParams (JStr t) desc a) w = (Ok r, w') ∧
             task_title (res_task r) = trim t ∧
             task_desc (res_task r) = trim d ∧
             record_of (store w') (res_id r) = Some (res_task r)) ∧
  (∃ r w', add_task now signer (mkAddParams (JStr "   ") JUndefined a) w
           = (Ok r, w') ∧
           task_title (res_task r) = "" ∧
           record_of (store w') (res_id r) = Some (res_task r)) ∧
  (∀ desc,
     let t := String " " (repeat_char 140 "a") in
     String.length t = 141%nat ∧ String.length (trim t) = 140%nat ∧
     add_task now signer (mkAddParams (JStr t) desc a) w
     = (Throw (Error "title exceeds 140 characters"), w)).
Proof.
  assert (∀ t desc d,
     t ≠ "" → (String.length t ≤ 140)%nat →
     desc_string desc = Some d → (String.length d ≤ 1000)%nat →
     ∃ r w', add_task now signer (mkAddParams (JStr t) desc a) w = (Ok r, w') ∧
             task_title (res_task r) = trim t ∧
             task_desc (res_task r) = trim d ∧
             record_of (store w') (res_id r) = Some (res_task r)) as Hgen.
  { intros t desc d Ht Hlt Hd Hld.
    rewrite (add_task_ok now signer t desc d a w) by done.
    eexists _, _. split; [done|]. simpl. repeat split.
    rewrite record_of_add_task. by rewrite decide_True. }
  split; [done|]. split.
  - destruct (Hgen "   " JUndefined "") as (r & w' & E & Ht & _ & Hrec);
      [done|simpl; lia|done|simpl; lia|].
    exists r, w'. by rewrite Ht in *.
  - intros desc t. split; [by vm_compute|]. split; [by vm_compute|].
    by rewrite add_task_eval.
Qed.

Lemma validation_before_trim_witness :
  ∃ r w', add_task scenario_clock "A" review_spec empty_world = (Ok r, w') ∧
          task_title (res_task r) = "Review spec" ∧
          task_desc (res_task r) = "second pass" ∧
          record_of (store w') (res_id r) = Some (res_task r).
Proof.
  apply (proj1 (validation_before_trim scenario_clock "A" (Some "B") empty_world)
           "  Review spec " (JStr "second pass") "second pass");
    [discriminate|simpl; lia|reflexivity|simpl; lia].
Defined.

(** C10 as first stated, with a fault of the engine on any [desc] that is
    no string, fails on a [desc] whose length is over the limit: an array
    of 1001 items is refused with [desc exceeds 1000 characters], a
    ValidationError, and nothing faults. *)
Lemma long_desc_is_refused_counterexample :
  (add_task scenario_clock "A"
     (mkAddParams (JStr "Write spec") long_array None) empty_world
   = (Throw (Error "desc exceeds 1000 characters"), empty_world)
   ∧ raised_as (Error "desc exceeds 1000 characters") ValidationError) ∧
  ¬ (∀ now signer t a w desc,
       t ≠ "" → (String.length t ≤ 140)%nat →
       desc ≠ JUndefined → (∀ d, desc ≠ JStr d) →
       ∃ msg w', add_task now signer (mkAddParams (JStr t) desc a) w
                 = (Throw (TypeError msg), w')).
Proof.
  split; [split; [by vm_compute|constructor]|].
  intros Hclaim.
  destruct (Hclaim scenario_clock "A" "Write spec" None empty_world long_array)
    as (msg & w' & E); [done|simpl; lia|done|done|].
  vm_compute in E. discriminate E.
Qed.

(** C10 (amended): the empty-string default of [desc] applies only when
    [desc] is absent.  With a valid title, no [desc] that is present and
    no string is accepted, and short of one case the handler faults with
    a runtime type error, which is no ValidationError: [null] at
    [desc.length], before any write; a boolean, a number, an array of at
    most 1000 items and every other value whose length is not above 1000
    at [desc.trim()], after the counter has been incremented.  The case
    apart is a value whose length is above 1000, an array of 1001 items
    for one: it is refused with [desc exceeds 1000 characters], a
    ValidationError, and nothing is written. *)
Theorem add_task_desc_not_total now signer t a w :
  t ≠ "" → (String.length t ≤ 140)%nat →
  add_task now signer (mkAddParams (JStr t) JUndefined a) w
  = add_task now signer (mkAddParams (JStr t) (JStr "") a) w ∧
  (∃ r w', add_task now signer (mkAddParams (JStr t) JUndefined a) w = (Ok r, w')) ∧
  (∃ msg, add_task now signer (mkAddParams (JStr t) JNull a) w
          = (Throw (TypeError msg), w)) ∧
  (∀ desc, desc ≠ JUndefined → (∀ d, desc ≠ JStr d) →
     (longer_than 1000 desc ∧
      add_task now signer (mkAddParams (JStr t) desc a) w
      = (Throw (Error "desc exceeds 1000 characters"), w)) ∨
     (¬ longer_than 1000 desc ∧
      ∃ msg w', add_task now signer (mkAddParams (JStr t) desc a) w
                = (Throw (TypeError msg), w') ∧
                (∀ c, ¬ raised_as (TypeError msg) c) ∧
                ((faults_at_length desc ∧ w' = w) ∨
                 (faults_at_trim desc ∧
                  w' = {| store := store_increment "task_seq" (store w);
                          ticks := ticks w; outbox := outbox w |} ∧
                  task_seq (store w') = (task_seq (store w) + 1)%N)))) ∧
  (∀ desc,
     (∃ b, desc = JBool b) ∨ (∃ n, desc = JNum n) ∨
     (∃ items, desc = JArr items ∧ (length items ≤ 1000)%nat) →
     ∃ msg w', add_task now signer (mkAddParams (JStr t) desc a) w
               = (Throw (TypeError msg), w') ∧
               task_seq (store w') = (task_seq (store w) + 1)%N) ∧
  (∀ items, (1000 < length items)%nat →
     add_task now signer (mkAddParams (JStr t) (JArr items) a) w
     = (Throw (Error "desc exceeds 1000 characters"), w)).
Proof.
  intros Ht Hlt.
  assert ((140 <? Z.of_nat (String.length t)) = false) as Hlt'
    by (apply Z.ltb_ge; lia).
  split; [|split; [|split; [|split; [|split]]]].
  - rewrite (add_task_ok now signer t JUndefined "" a w),
      (add_task_ok now signer t (JStr "") "" a w); (done || simpl; lia).
  - rewrite (add_task_ok now signer t JUndefined "" a w); (eauto || simpl; lia).
  - rewrite add_task_eval, Hlt' by done. eauto.
  - intros desc Hu Hs.
    destruct (add_task_cases now signer (mkAddParams (JStr t) desc a) w)
      as [[Hm E]|[(t' & Ht' & Hne & Hl & E)|[(t' & Ht' & Hne & Hl & Hd & E)
         |[(t' & msg & Ht' & Hne & Hl & Hd & E)|[(t' & msg & Ht' & Hne & Hl & Hd & E)
         |(t' & d & Ht' & Hne & Hl & Hd & _)]]]]]; simplify_eq/=; try lia.
    + by left.
    + right. split.
      { intros Hlong. destruct Hd as [->|[_ Hp]]; [done|].
        apply longer_than_gt in Hlong as [? _]. congruence. }
      eexists _, _. split; [done|]. split; [intros c Hr; inversion Hr|].
      by left.
    + right. split.
      { intros [_ Hg]%longer_than_gt. change (Z.of_nat 1000) with 1000 in Hg.
        destruct Hd as (_ & _ & _ & Hd). congruence. }
      eexists _, _. split; [done|]. split; [intros c Hr; inversion Hr|].
      right. split; [done|]. split; [done|].
      apply (counter_of_store_increment "task_seq").
    + destruct desc; simplify_eq/=; by destruct (Hs d).
  - intros desc Hdesc. rewrite add_task_eval, Hlt' by done.
    destruct Hdesc as [[b ->]|[[n ->]|(items & -> & Hlen)]]; simpl.
    + eexists _, _. split; [done|]. apply (counter_of_store_increment "task_seq").
    + eexists _, _. split; [done|]. apply (counter_of_store_increment "task_seq").
    + destruct (Z.ltb_spec 1000 (Z.of_nat (length items))); [lia|].
      eexists _, _. split; [done|]. apply (counter_of_store_increment "task_seq").
  - intros items Hlen. rewrite add_task_eval, Hlt' by done. simpl.
    by destruct (Z.ltb_spec 1000 (Z.of_nat (length items))); [|lia].
Qed.

Lemma add_task_desc_not_total_witness :
  (∃ msg, add_task scenario_clock "A" (mkAddParams (JStr "Write spec") JNull None)
            empty_world = (Throw (TypeError msg), empty_world)) ∧
  (∃ msg w', add_task scenario_clock "A"
               (mkAddParams (JStr "Write spec") (JNum 7) None) empty_world
             = (Throw (TypeError msg), w') ∧
             task_seq (store w') = (task_seq (store empty_world) + 1)%N) ∧
  add_task scenario_clock "A"
    (mkAddParams (JStr "Write spec") (JArr (replicate 1001 (JNum 0))) None)
    empty_world
  = (Throw (Error "desc exceeds 1000 characters"), empty_world).
Proof.
  assert ("Write spec" ≠ "") as H1 by discriminate.
  assert (String.length "Write spec" ≤ 140)%nat as H2 by (simpl; lia).
  pose proof (add_task_desc_not_total scenario_clock "A" "Write spec" None
                empty_world H1 H2) as (_ & _ & Hnull & _ & Hscalar & Hlong).
  split; [exact Hnull|]. split.
  - apply Hscalar. right; left. by exists 7.
  - apply Hlong. rewrite length_replicate. lia.
Defined.

Lemma complete_errors_distinct id st :
  let not_found := Error ("Task " +:+ id +:+ " not found") in
  let not_open := Error ("Task " +:+ id +:+ " is not open (status: "
                          +:+ status_str st +:+ ")") in
  let forbidden := Error "Only the creator or assignee may complete this task" in
  not_found ≠ not_open ∧ not_found ≠ forbidden ∧ not_open ≠ forbidden.
Proof.
  simpl. repeat split; intros [= H]; try discriminate H.
  rewrite !app_nil_l in H. apply (inj (String.app id)) in H. discriminate H.
Qed.

(** C3: [complete_task] checks, in this order and each with an error of
    its own: the task exists (NotFoundError); its status is open
    (InvalidStateError, the message carrying the current status); the
    signer is the creator or the assignee (AuthorizationError), whatever
    the admin query says of the signer.  A completion applied a second
    time is rejected with the InvalidStateError for status completed. *)
Theorem complete_task_preconditions now isAdmin signer id w :
  id ≠ "" →
  let res := apply now isAdmin (CompleteTask signer id) w in
  (record_of (store w) id = None →
   let e := Error ("Task " +:+ id +:+ " not found") in
   res = (Throw e, w) ∧ raised_as e NotFoundError) ∧
  (∀ t, record_of (store w) id = Some t → task_status t ≠ Open →
        let e := Error ("Task " +:+ id +:+ " is not open (status: "
                         +:+ status_str (task_status t) +:+ ")") in
        res = (Throw e, w) ∧ raised_as e InvalidStateError) ∧
  (∀ t, record_of (store w) id = Some t → task_status t = Open →
        task_creator t ≠ signer → task_assignee t ≠ Some signer →
        let e := Error "Only the creator or assignee may complete this task" in
        res = (Throw e, w) ∧ raised_as e AuthorizationError) ∧
  (∀ r w1, res = (Ok r, w1) →
           ∀ signer',
             apply now isAdmin (CompleteTask signer' id) w1
             = (Throw (Error ("Task " +:+ id
                               +:+ " is not open (status: completed)")), w1)) ∧
  (∀ st,
     Error ("Task " +:+ id +:+ " not found")
     ≠ Error ("Task " +:+ id +:+ " is not open (status: " +:+ status_str st +:+ ")") ∧
     Error ("Task " +:+ id +:+ " not found")
     ≠ Error "Only the creator or assignee may complete this task" ∧
     Error ("Task " +:+ id +:+ " is not open (status: " +:+ status_str st +:+ ")")
     ≠ Error "Only the creator or assignee may complete this task").
Proof.
  intros Hid res. subst res. simpl. split; [|split; [|split; [|split]]].
  - intros Hrec. split; [by apply complete_task_not_found|constructor].
  - intros t Hrec Hst. split; [by apply complete_task_not_open|constructor].
  - intros t Hrec Hst Hc Ha.
    split; [by apply (complete_task_forbidden now signer id t)|constructor].
  - intros r w1 H signer'.
    destruct (complete_task_cases now signer id w)
      as [[_ E]|[(_ & _ & E)|[(t & _ & _ & _ & E)|[(t & _ & _ & _ & _ & _ & E)
          |(t & _ & Hrec & Hst & _ & E)]]]]; simpl in E;
      rewrite E in H; simplify_eq.
    rewrite (complete_task_not_open now signer' id
               (mark_completed t (now (ticks w)) signer)); [done|done| |done].
    simpl. rewrite record_of_move_task. by rewrite decide_True.
  - intros st. apply (complete_errors_distinct id st).
Qed.

Lemma complete_task_preconditions_witness :
  apply scenario_clock scenario_admin (CompleteTask "root" "task_000003")
    (world_after 5)
  = (Throw (Error "Task task_000003 not found"), world_after 5) ∧
  apply scenario_clock scenario_admin (CompleteTask "A" "task_000001")
    (world_after 5)
  = (Throw (Error "Task task_000001 is not open (status: completed)"),
     world_after 5) ∧
  scenario_admin "root" = true ∧
  apply scenario_clock scenario_admin (CompleteTask "root" "task_000002")
    (world_after 5)
  = (Throw (Error "Only the creator or assignee may complete this task"),
     world_after 5) ∧
  apply scenario_clock scenario_admin (CompleteTask "B" "task_000001")
    (world_after 3)
  = (Throw (Error "Task task_000001 is not open (status: completed)"),
     world_after 3).
Proof.
  assert ("task_000001" ≠ "") as H1 by discriminate.
  assert ("task_000002" ≠ "") as H2 by discriminate.
  assert ("task_000003" ≠ "") as H3 by discriminate.
  split; [|split; [|split; [reflexivity|split]]].
  - apply (proj1 (complete_task_preconditions scenario_clock scenario_admin
                    "root" "task_000003" (world_after 5) H3)).
    vm_compute. reflexivity.
  - on_record (world_after 5) "task_000001" ltac:(fun t =>
      refine (proj1 (proj1 (proj2 (complete_task_preconditions scenario_clock
               scenario_admin "A" "task_000001" (world_after 5) H1)) t _ _)));
      [vm_compute; reflexivity|vm_compute; discriminate].
  - on_record (world_after 5) "task_000002" ltac:(fun t =>
      refine (proj1 (proj1 (proj2 (proj2 (complete_task_preconditions
               scenario_clock scenario_admin "root" "task_000002"
               (world_after 5) H2))) t _ _ _ _)));
      [vm_compute; reflexivity|vm_compute; reflexivity
      |vm_compute; discriminate|vm_compute; discriminate].
  - eapply (proj1 (proj2 (proj2 (proj2 (complete_task_preconditions
              scenario_clock scenario_admin "A" "task_000001" (world_after 2)
              H1))))).
    vm_compute. reflexivity.
Defined.

(** C4: on an existing open task, [cancel_task] succeeds exactly when the
    signer is the creator or holds the admin capability.  A signer who is
    neither (the assignee included) fails with AuthorizationError and
    nothing is written.  On success the task is cancelled, [cancelled_by]
    is the signer, and the id has left [tasks:open] for
    [tasks:cancelled]. *)
Theorem cancel_task_authorization now isAdmin signer id t w :
  id ≠ "" → record_of (store w) id = Some t → task_status t = Open →
  let res := apply now isAdmin (CancelTask signer id) w in
  ((∃ r w', res = (Ok r, w'))
   ↔ task_creator t = signer ∨ isAdmin signer = true) ∧
  (task_creator t ≠ signer → isAdmin signer = false →
   let e := Error "Only the creator or an admin may cancel this task" in
   res = (Throw e, w) ∧ raised_as e AuthorizationError) ∧
  (∀ r w', res = (Ok r, w') →
     res_id r = id ∧
     task_status (res_task r) = Cancelled ∧
     task_cancelled_by (res_task r) = Some signer ∧
     record_of (store w') id = Some (res_task r) ∧
     (consistent (store w) → id ∈ status_set (store w) Open) ∧
     (id ∉ status_set (store w') Open) ∧
     (id ∈ status_set (store w') Cancelled)).
Proof.
  intros Hid Hrec Hst res. subst res. simpl.
  assert (∀ r w', cancel_task now isAdmin signer id w = (Ok r, w') →
            (task_creator t = signer ∨ isAdmin signer = true) ∧
            r = {| success := true; res_id := id;
                   res_task := mark_cancelled t (now (ticks w)) signer |} ∧
            store w' = move_task_store id
                         (mark_cancelled t (now (ticks w)) signer) (store w))
    as Hok.
  { intros r w' H.
    destruct (cancel_task_cases now isAdmin signer id w)
      as [[_ E]|[(_ & _ & E)|[(t' & _ & _ & _ & E)|[(t' & _ & _ & _ & _ & _ & E)
          |(t' & _ & Hrec' & _ & Hauth & E)]]]]; simpl in E;
      rewrite E in H; simplify_eq.
    done. }
  split; [split|split].
  - intros (r & w' & H). by apply Hok in H as [? _].
  - intros Hauth. rewrite (cancel_task_ok now isAdmin signer id t w) by done.
    eauto.
  - intros Hc Ha. split; [by apply (cancel_task_forbidden _ _ _ _ t)|constructor].
  - intros r w' H. apply Hok in H as (_ & -> & ->). simpl.
    rewrite record_of_move_task, decide_True by done.
    rewrite !status_set_move_task by done. simpl.
    repeat split.
    + intros Hcons. by apply (cons_status _ Hcons id t Hrec Open).
    + set_solver.
    + set_solver.
Qed.

Lemma cancel_task_authorization_witness :
  (* the assignee alone *)
  apply scenario_clock scenario_admin (CancelTask "B" "task_000002")
    (world_after 5)
  = (Throw (Error "Only the creator or an admin may cancel this task"),
     world_after 5) ∧
  (* an admin who is not the creator *)
  ∃ r w', apply scenario_clock scenario_admin (CancelTask "root" "task_000002")
            (world_after 5) = (Ok r, w').
Proof.
  assert ("task_000002" ≠ "") as H2 by discriminate.
  split.
  - on_record (world_after 5) "task_000002" ltac:(fun t =>
      refine (proj1 (proj1 (proj2 (cancel_task_authorization scenario_clock
                scenario_admin "B" "task_000002" t (world_after 5) H2 _ _))
                _ _)));
      [vm_compute; reflexivity|vm_compute; reflexivity
      |vm_compute; discriminate|vm_compute; reflexivity].
  - on_record (world_after 5) "task_000002" ltac:(fun t =>
      refine (proj2 (proj1 (cancel_task_authorization scenario_clock
                scenario_admin "root" "task_000002" t (world_after 5) H2 _ _))
                (or_intror _)));
      [vm_compute; reflexivity|vm_compute; reflexivity|vm_compute; reflexivity].
Defined.

(** ** Histories *)

Lemma history_run now isAdmin ops w ids :
  history w ids →
  history (snd (run now isAdmin ops w)) (run_created now isAdmin ops w ids).
Proof.
  revert w ids. induction ops as [|o ops IH]; intros w ids Hw; simpl; [done|].
  destruct (apply now isAdmin o w) as [r w'] eqn:E.
  specialize (IH w' (created_by o r ++ ids) (history_step _ _ _ _ _ _ _ Hw E)).
  by destruct (run now isAdmin ops w').
Qed.

(** Under index consistency [tasks:all] is the disjoint union of the three
    status sets. *)
Lemma consistent_sizes s :
  consistent s →
  size (all_ids s)
  = (size (status_set s Open) + size (status_set s Completed)
     + size (status_set s Cancelled))%nat.
Proof.
  intros [Hrec Hstat Hsub _].
  assert (∀ id st st', id ∈ status_set s st → id ∈ status_set s st' → st = st')
    as Hone.
  { intros id st st' H1 H2. pose proof (Hsub _ _ H1) as Hall.
    apply Hrec in Hall as [t Ht].
    apply (Hstat id t Ht) in H1, H2. congruence. }
  assert (all_ids s = status_set s Open ∪ status_set s Completed
                      ∪ status_set s Cancelled) as ->.
  { apply set_eq. intros id. rewrite !elem_of_union. split.
    - intros Hall. pose proof Hall as [t Ht]%Hrec.
      pose proof (proj2 (Hstat id t Ht (task_status t)) eq_refl).
      destruct (task_status t); auto.
    - intros [[H|H]|H]; by eapply Hsub. }
  rewrite !size_union; [done|..].
  - intros id H1 H2. by specialize (Hone id _ _ H1 H2).
  - intros id [H1|H1]%elem_of_union H2; by specialize (Hone id _ _ H1 H2).
Qed.

(** C2: in every state reached from the empty store, every created task id
    is in [tasks:all] and in exactly one status set, the one named by the
    status field of its record; and [stats] returns a total equal to
    open + completed + cancelled. *)
Theorem index_consistency w ids :
  history w ids →
  (∀ id, id ∈ ids →
     id ∈ all_ids (store w) ∧
     ∃ t, record_of (store w) id = Some t ∧
          id ∈ status_set (store w) (task_status t) ∧
          ∀ st, id ∈ status_set (store w) st → st = task_status t) ∧
  ∃ r, stats w = (Ok r, w) ∧
       s_total r = (s_open r + s_completed r + s_cancelled r)%nat.
Proof.
  intros Hw. pose proof (history_consistent w ids Hw) as Hs. split.
  - intros id Hin. pose proof (history_created w ids Hw id Hin) as Hall.
    split; [done|]. pose proof Hall as [t Ht]%(cons_record _ Hs).
    exists t. split; [done|]. split.
    + by apply (cons_status _ Hs id t Ht).
    + intros st Hst. symmetry. by apply (cons_status _ Hs id t Ht).
  - eexists. split; [reflexivity|]. simpl.
    apply (consistent_sizes _ Hs).
Qed.

Lemma index_consistency_witness :
  (∀ id, id ∈ run_created scenario_clock scenario_admin scenario empty_world [] →
     id ∈ all_ids (store scenario_world) ∧
     ∃ t, record_of (store scenario_world) id = Some t ∧
          id ∈ status_set (store scenario_world) (task_status t) ∧
          ∀ st, id ∈ status_set (store scenario_world) st → st = task_status t) ∧
  ∃ r, stats scenario_world = (Ok r, scenario_world) ∧
       s_total r = (s_open r + s_completed r + s_cancelled r)%nat.
Proof.
  apply (index_consistency scenario_world
           (run_created scenario_clock scenario_admin scenario empty_world [])).
  apply (history_run scenario_clock scenario_admin scenario empty_world []).
  apply history_init.
Defined.

(** ** Task ids along a history *)

Lemma add_write_spec w :
  let task := new_task scenario_clock "A" (task_seq (store w) + 1)
                "Write spec" "" None (ticks w) in
  add_task scenario_clock "A" write_spec w
  = (Ok {| success := true; res_id := task_id task; res_task := task |},
     sent (task_id task) Open w (add_task_store task None (store w))
       (S (S (ticks w)))).
Proof.
  apply (add_task_ok scenario_clock "A" "Write spec" JUndefined "" None w);
    (done || simpl; lia).
Qed.

(** Any counter value is reached: run that many successful [add_task]s. *)
Lemma history_reaches_counter (n : N) :
  ∃ w ids, history w ids ∧ task_seq (store w) = n.
Proof.
  induction n as [|n (w & ids & Hw & Hn)] using N.peano_ind.
  - exists empty_world, []. split; [constructor|done].
  - eexists _, _. split.
    + apply (history_step w ids scenario_clock scenario_admin
               (AddTask "A" write_spec) _ _ Hw (add_write_spec w)).
    + simpl. rewrite task_seq_add_task. lia.
Qed.

Lemma strictly_descending_NoDup (ns : list N) :
  StronglySorted (λ a b, (b < a)%N) ns → NoDup ns.
Proof.
  induction 1 as [|n ns _ IH Hall]; constructor; [|done].
  intros Hin. rewrite Forall_forall in Hall. specialize (Hall n Hin). lia.
Qed.

(** The claim as first stated, with exactly six digits, fails at the
    millionth task: from a store whose counter is 999999, reached by that
    many creations, [add_task] returns [task_1000000]. *)
Lemma six_digit_ids_counterexample :
  ¬ (∀ w ids now signer params r w',
       history w ids →
       add_task now signer params w = (Ok r, w') →
       ∃ digits, res_id r = "task_" +:+ digits ∧ String.length digits = 6%nat).
Proof.
  intros Hclaim.
  destruct (history_reaches_counter 999999) as (w & ids & Hw & Hn).
  specialize (Hclaim w ids scenario_clock "A" write_spec _ _ Hw
                (add_write_spec w)).
  destruct Hclaim as (digits & Hid & Hlen). simpl in Hid. rewrite Hn in Hid.
  apply (inj (String.app "task_")) in Hid. subst digits.
  vm_compute in Hlen. discriminate Hlen.
Qed.

(** C6 (amended): every successful [add_task] increments [task_seq] by one
    and returns [task_] followed by the new counter value in decimal,
    zero-padded to at least six digits, exactly six while the value is
    below 1000000.  Along any history the ids created are pairwise
    distinct and built from strictly increasing counter values, whatever
    the titles. *)
Theorem task_ids_sequential :
  (∀ now signer params w r w',
     add_task now signer params w = (Ok r, w') →
     task_seq (store w') = (task_seq (store w) + 1)%N ∧
     ∃ digits,
       res_id r = "task_" +:+ digits ∧
       digits = padStart 6 "0" (pretty (task_seq (store w'))) ∧
       (6 ≤ String.length digits)%nat ∧
       ((task_seq (store w') < 1000000)%N → String.length digits = 6%nat)) ∧
  (∀ w ids,
     history w ids →
     NoDup ids ∧
     ∃ ns : list N, ids = format_task_id <$> ns ∧
                    StronglySorted (λ a b, (b < a)%N) ns ∧
                    Forall (λ n, (1 ≤ n ≤ task_seq (store w))%N) ns).
Proof.
  split.
  - intros now signer params w r w' H.
    apply add_task_inv in H as (t & d & _ & _ & _ & _ & _ & -> & ->). simpl.
    rewrite task_seq_add_task. split; [done|]. apply format_task_id_digits.
  - intros w ids Hw.
    destruct (history_counters w ids Hw) as (ns & -> & Hsort & Hall).
    split; [|eauto].
    apply NoDup_fmap_2_strong; [|by apply strictly_descending_NoDup].
    intros n m Hn Hm. rewrite Forall_forall in Hall.
    apply format_task_id_inj; [specialize (Hall n Hn)|specialize (Hall m Hm)]; lia.
Qed.

Lemma task_ids_sequential_witness :
  (∃ w', task_seq (store w') = (task_seq (store empty_world) + 1)%N ∧
         ∃ digits,
           "task_000001" = "task_" +:+ digits ∧
           digits = padStart 6 "0" (pretty (task_seq (store w'))) ∧
           (6 ≤ String.length digits)%nat ∧
           ((task_seq (store w') < 1000000)%N → String.length digits = 6%nat)) ∧
  NoDup (run_created scenario_clock scenario_admin scenario empty_world []) ∧
  ∃ ns : list N,
    run_created scenario_clock scenario_admin scenario empty_world []
    = format_task_id <$> ns ∧
    StronglySorted (λ a b, (b < a)%N) ns ∧
    Forall (λ n, (1 ≤ n ≤ task_seq (store scenario_world))%N) ns.
Proof.
  split.
  - eexists. apply (proj1 task_ids_sequential scenario_clock "A" write_spec
                      empty_world _ _ (add_write_spec empty_world)).
  - apply (proj2 task_ids_sequential scenario_world).
    apply (history_run scenario_clock scenario_admin scenario empty_world []).
    apply history_init.
Defined.

(** ** [list_tasks] *)

Lemma list_tasks_loop_eq status ids acc w :
  list_tasks_loop status ids acc w
  = (Ok (acc ++ filter (kept status) (present_tasks (store w) ids)), w).
Proof.
  revert acc. induction ids as [|id ids IH]; intros acc; simpl.
  - by rewrite app_nil_r.
  - step_handler. fold (record_of (store w) id). unfold present_tasks. simpl.
    destruct (record_of (store w) id) as [t|]; simpl; [|apply IH].
    rewrite filter_cons.
    destruct (decide (kept status t)) as [Hk|Hk]; unfold kept in Hk.
    + apply Is_true_true in Hk. rewrite Hk, IH. by rewrite <-app_assoc.
    + apply Is_true_false in Hk. rewrite Hk. apply IH.
Qed.

Lemma sort_insert_perm cmp x l : sort_insert cmp x l ≡ₚ x :: l.
Proof.
  induction l as [|y l IH]; simpl; [done|].
  destruct (0 <? cmp x y); [|done]. rewrite IH. apply Permutation_swap.
Qed.

Lemma js_sort_perm cmp l : js_sort cmp l ≡ₚ l.
Proof.
  induction l as [|x l IH]; simpl; [done|].
  by rewrite sort_insert_perm, IH.
Qed.

Lemma sort_insert_sorted x l :
  Sorted newer_or_same l → Sorted newer_or_same (sort_insert by_created_desc x l).
Proof.
  induction 1 as [|y l Hs IH Hhd]; simpl; [by repeat constructor|].
  unfold by_created_desc at 1.
  destruct (Z.ltb_spec 0 (task_created_at y - task_created_at x)).
  - constructor; [done|].
    destruct l as [|z l]; simpl in *.
    + constructor. unfold newer_or_same. lia.
    + destruct (0 <? by_created_desc x z).
      * constructor. by inversion Hhd.
      * constructor. unfold newer_or_same. lia.
  - constructor; [by constructor|]. constructor. unfold newer_or_same. lia.
Qed.

Lemma js_sort_sorted l : Sorted newer_or_same (js_sort by_created_desc l).
Proof.
  induction l as [|x l IH]; simpl; [constructor|]. by apply sort_insert_sorted.
Qed.

Lemma filter_all {A} (P : A → Prop) `{!∀ x, Decision (P x)} (l : list A) :
  Forall P l → filter P l = l.
Proof.
  induction 1 as [|x l Hx _ IH]; [done|].
  rewrite filter_cons, decide_True by done. by rewrite IH.
Qed.

Lemma status_str_inj st st' : status_str st = status_str st' → st = st'.
Proof. by destruct st, st'. Qed.

Lemma kept_status st t : kept (Some (status_str st)) t ↔ task_status t = st.
Proof.
  unfold kept. assert (truthy_opt (Some (status_str st)) = true) as ->
    by by destruct st.
  simpl. rewrite bool_decide_spec. split.
  - intros [= H]. by apply status_str_inj.
  - by intros ->.
Qed.

Lemma kept_absent t : kept None t.
Proof. done. Qed.

(** [list_tasks] as one equation: candidate ids, fetch, filter, sort. *)
Lemma list_tasks_eq status assignee w :
  let key := if truthy_opt assignee then "tasks:assignee:" +:+ default "" assignee
             else if truthy_opt status then "tasks:" +:+ default "" status
             else "tasks:all" in
  let found := filter (kept status)
                 (present_tasks (store w) (elements (set_of (store w) key))) in
  list_tasks status assignee w
  = (Ok {| r_tasks := js_sort by_created_desc found;
           r_count := length (js_sort by_created_desc found) |}, w).
Proof.
  intros key found. unfold list_tasks.
  assert ((if truthy_opt assignee
           then state_smembers ("tasks:assignee:" +:+ default "" assignee)
           else if truthy_opt status
                then state_smembers ("tasks:" +:+ default "" status)
                else state_smembers "tasks:all") = state_smembers key) as ->.
  { subst key. by destruct (truthy_opt assignee), (truthy_opt status). }
  step_handler. by rewrite list_tasks_loop_eq.
Qed.

(** C7: [list_tasks] takes its candidates from the assignee index when an
    assignee is given, post-filtered by status when a status is given too
    and of every status otherwise; else from the status set when only a
    status is given; else from [tasks:all].  Ids without a record are
    skipped, the result is in descending order of [created_at], and
    [count] is the number of tasks returned.  Only the status-only case
    leans on the store being consistent, as every reachable one is: there
    the source runs the status test again on the members of the set. *)
Theorem list_tasks_resolution w (status : option status)
    (assignee : option string) :
  assignee ≠ Some "" →
  (assignee = None → status ≠ None → consistent (store w)) →
  ∃ r, list_tasks (status_str <$> status) assignee w = (Ok r, w) ∧
       r_tasks r = js_sort by_created_desc
                     (list_tasks_candidates (store w) status assignee) ∧
       r_tasks r ≡ₚ list_tasks_candidates (store w) status assignee ∧
       Sorted newer_or_same (r_tasks r) ∧
       r_count r = length (r_tasks r).
Proof.
  intros Ha Hs.
  rewrite list_tasks_eq. eexists. split; [done|]. simpl.
  assert (filter (kept (status_str <$> status))
            (present_tasks (store w)
               (elements (set_of (store w)
                  (if truthy_opt assignee
                   then "tasks:assignee:" +:+ default "" assignee
                   else if truthy_opt (status_str <$> status)
                        then "tasks:" +:+ default "" (status_str <$> status)
                        else "tasks:all"))))
          = list_tasks_candidates (store w) status assignee) as ->.
  { destruct assignee as [a|], status as [st|]; simpl.
    - assert (truthy_str a = true) as ->.
      { unfold truthy_str. rewrite bool_decide_eq_false_2; [done|congruence]. }
      apply list_filter_iff. intros t. apply kept_status.
    - assert (truthy_str a = true) as ->.
      { unfold truthy_str. rewrite bool_decide_eq_false_2; [done|congruence]. }
      apply filter_all, Forall_forall. intros t _. apply kept_absent.
    - assert (truthy_str (status_str st) = true) as -> by by destruct st.
      rewrite status_key_str. fold (status_set (store w) st).
      apply filter_all, Forall_forall. intros t Ht. apply kept_status.
      apply list_elem_of_omap in Ht as (id & Hid & Hrec).
      apply elem_of_elements in Hid.
      by apply (cons_status _ (Hs eq_refl ltac:(done)) id t Hrec st).
    - apply filter_all, Forall_forall. intros t _. apply kept_absent. }
  split; [done|]. split; [apply js_sort_perm|]. split; [apply js_sort_sorted|done].
Qed.

Lemma list_tasks_resolution_witness :
  ∃ r, list_tasks (Some "cancelled") None scenario_world
       = (Ok r, scenario_world) ∧
       r_tasks r = js_sort by_created_desc
                     (list_tasks_candidates (store scenario_world)
                        (Some Cancelled) None) ∧
       r_tasks r ≡ₚ list_tasks_candidates (store scenario_world)
                      (Some Cancelled) None ∧
       Sorted newer_or_same (r_tasks r) ∧
       r_count r = length (r_tasks r).
Proof.
  apply (list_tasks_resolution scenario_world (Some Cancelled) None).
  - discriminate.
  - intros _ _.
    apply (history_consistent scenario_world
             (run_created scenario_clock scenario_admin scenario empty_world [])).
    apply (history_run scenario_clock scenario_admin scenario empty_world []).
    apply history_init.
Defined.

(** C1: two runs of the same operation from the same empty store, on nodes
    whose clocks read 1000 and 2000, end in different stores: the record of
    the task carries the local clock reading in [created_at] (and in
    [updated_at]). *)
Theorem apply_depends_on_clock :
  let ops := [AddTask "A" write_spec] in
  let w1 := snd (run (λ _, 1000) scenario_admin ops empty_world) in
  let w2 := snd (run (λ _, 2000) scenario_admin ops empty_world) in
  task_created_at <$> record_of (store w1) "task_000001" = Some 1000 ∧
  task_created_at <$> record_of (store w2) "task_000001" = Some 2000 ∧
  task_updated_at <$> record_of (store w1) "task_000001" = Some 1000 ∧
  task_updated_at <$> record_of (store w2) "task_000001" = Some 2000 ∧
  store w1 ≠ store w2.
Proof.
  intros ops w1 w2.
  assert (task_created_at <$> record_of (store w1) "task_000001" = Some 1000)
    as H1 by (vm_compute; reflexivity).
  assert (task_created_at <$> record_of (store w2) "task_000001" = Some 2000)
    as H2 by (vm_compute; reflexivity).
  repeat split; try (vm_compute; reflexivity).
  intros Heq. rewrite Heq in H1. rewrite H1 in H2. discriminate H2.
Qed.

(** * Further properties of the contract *)

(** ** Every way one operation can go *)

Lemma apply_detail now isAdmin o w r w' :
  apply now isAdmin o w = (r, w') →
  (∃ e, r = Throw e ∧ outbox w' = outbox w ∧
        (store w' = store w ∨
         store w' = store_increment "task_seq" (store w))) ∨
  (∃ signer params t d,
     o = AddTask signer params ∧ p_title params = JStr t ∧ t ≠ "" ∧
     (String.length t ≤ 140)%nat ∧
     desc_string (p_desc params) = Some d ∧ (String.length d ≤ 1000)%nat ∧
     let task := new_task now signer (task_seq (store w) + 1) t d
                   (p_assignee params) (ticks w) in
     r = Ok {| success := true; res_id := task_id task; res_task := task |} ∧
     w' = sent (task_id task) Open w
            (add_task_store task (p_assignee params) (store w))
            (S (S (ticks w)))) ∨
  (∃ signer id t,
     o = CompleteTask signer id ∧ id ≠ "" ∧
     record_of (store w) id = Some t ∧ task_status t = Open ∧
     (task_creator t = signer ∨ task_assignee t = Some signer) ∧
     let task := mark_completed t (now (ticks w)) signer in
     r = Ok {| success := true; res_id := id; res_task := task |} ∧
     w' = sent id Completed w (move_task_store id task (store w))
            (S (ticks w))) ∨
  (∃ signer id t,
     o = CancelTask signer id ∧ id ≠ "" ∧
     record_of (store w) id = Some t ∧ task_status t = Open ∧
     (task_creator t = signer ∨ isAdmin signer = true) ∧
     let task := mark_cancelled t (now (ticks w)) signer in
     r = Ok {| success := true; res_id := id; res_task := task |} ∧
     w' = sent id Cancelled w (move_task_store id task (store w))
            (S (ticks w))).
Proof.
  destruct o as [signer params|signer id|signer id]; simpl; intros H.
  - destruct r as [res|[msg|msg]].
    + apply add_task_inv in H as (t & d & Ht & Hne & Hl & Hd & Hld & -> & ->).
      right; left. exists signer, params, t, d. by repeat split.
    + apply add_task_error in H as [-> _]. left. eexists. by repeat split; auto.
    + apply add_task_fault in H as [->| ->]; left; eexists; by repeat split; auto.
  - destruct (complete_task_cases now signer id w)
      as [[_ E]|[(_ & _ & E)|[(t & _ & _ & _ & E)|[(t & _ & _ & _ & _ & _ & E)
          |(t & Hid & Hrec & Hst & Hauth & E)]]]]; simpl in E;
      rewrite E in H; simplify_eq;
      try (left; eexists; by repeat split; auto).
    right; right; left. exists signer, id, t. by repeat split.
  - destruct (cancel_task_cases now isAdmin signer id w)
      as [[_ E]|[(_ & _ & E)|[(t & _ & _ & _ & E)|[(t & _ & _ & _ & _ & _ & E)
          |(t & Hid & Hrec & Hst & Hauth & E)]]]]; simpl in E;
      rewrite E in H; simplify_eq;
      try (left; eexists; by repeat split; auto).
    do 3 right. exists signer, id, t. by repeat split.
Qed.

(** ** Lengths of trimmed strings *)

Lemma rev_app_length s1 s2 :
  String.length (String.rev_app s1 s2)
  = (String.length s1 + String.length s2)%nat.
Proof.
  revert s2. induction s1 as [|c s1 IH]; intros s2; simpl; [done|].
  rewrite IH. simpl. lia.
Qed.

Lemma rev_length s : String.length (String.rev s) = String.length s.
Proof. unfold String.rev. rewrite rev_app_length. simpl. lia. Qed.

Lemma trim_start_length s : (String.length (trim_start s) ≤ String.length s)%nat.
Proof.
  induction s as [|c s IH]; simpl; [done|].
  destruct (is_white c); simpl; lia.
Qed.

Lemma trim_length s : (String.length (trim s) ≤ String.length s)%nat.
Proof.
  unfold trim, trim_end. rewrite rev_length.
  etrans; [apply trim_start_length|]. rewrite rev_length.
  apply trim_start_length.
Qed.

(** ** The assignee index and the shape of records *)

Lemma assignee_key_inj a a' : assignee_key a = assignee_key a' → a = a'.
Proof. apply (inj (String.app "tasks:assignee:")). Qed.

Lemma truthy_str_true x : truthy_str x = true ↔ x ≠ "".
Proof.
  unfold truthy_str. case_bool_decide; simpl; split; (done || congruence).
Qed.

Lemma assignee_set_add_task task a s a' :
  assignee_set (add_task_store task a s) a'
  = if decide (a = Some a' ∧ a' ≠ "")
    then {[task_id task]} ∪ assignee_set s a' else assignee_set s a'.
Proof.
  unfold assignee_set, add_task_store.
  assert (set_of (store_sadd "tasks:open" (task_id task)
            (store_sadd "tasks:all" (task_id task)
               (store_set ("task:" +:+ task_id task) task
                  (store_increment "task_seq" s)))) (assignee_key a')
          = set_of s (assignee_key a')) as Hbase.
  { rewrite !set_of_store_sadd. unfold assignee_key.
    repeat case_decide; try done; discriminate. }
  destruct a as [x|]; unfold truthy_opt.
  - change (default "" (Some x)) with x.
    destruct (truthy_str x) eqn:Hx.
    + apply truthy_str_true in Hx. rewrite set_of_store_sadd.
      fold (assignee_key x). rewrite !Hbase.
      destruct (decide (x = a')) as [->|Hne].
      * rewrite !decide_True by done. by rewrite Hbase.
      * rewrite !decide_False; [done|naive_solver|].
        intros ?%assignee_key_inj. done.
    + rewrite Hbase. rewrite decide_False; [done|].
      intros [[= ->] Hne]. apply truthy_str_true in Hne. congruence.
  - rewrite Hbase. rewrite decide_False; [done|]. by intros [? _].
Qed.

Lemma assignee_set_move_task id task s a :
  assignee_set (move_task_store id task s) a = assignee_set s a.
Proof.
  unfold assignee_set, move_task_store, assignee_key.
  rewrite set_of_store_sadd, !set_of_store_srem.
  destruct (task_status task); simpl; repeat case_decide; try done; discriminate.
Qed.

Lemma well_formed_new_task now signer n t d a k :
  (String.length t ≤ 140)%nat → (String.length d ≤ 1000)%nat →
  well_formed (format_task_id n) (new_task now signer n t d a k).
Proof.
  intros Ht Hd. split; simpl; try done.
  - etrans; [apply trim_length|done].
  - etrans; [apply trim_length|done].
Qed.

Lemma well_formed_completed id t now signer :
  well_formed id t → task_status t = Open →
  task_creator t = signer ∨ task_assignee t = Some signer →
  well_formed id (mark_completed t now signer).
Proof.
  intros [Hid Hti Hde Hop _ _] Hst Hauth.
  destruct (Hop Hst) as [_ Hc].
  split; simpl; try done. intros _. split; [done|]. by exists signer.
Qed.

Lemma well_formed_cancelled id t now signer :
  well_formed id t → task_status t = Open →
  well_formed id (mark_cancelled t now signer).
Proof.
  intros [Hid Hti Hde Hop _ _] Hst.
  destruct (Hop Hst) as [Hc _].
  split; simpl; try done. intros _. split; [done|]. by exists signer.
Qed.

Lemma records_ok_empty : records_ok empty_store.
Proof.
  split.
  - intros id t. unfold record_of. simpl. by rewrite lookup_empty.
  - intros a id. unfold assignee_set, record_of, set_of. simpl.
    rewrite !lookup_empty. simpl. split; [set_solver|].
    by intros (_ & t & ? & _).
Qed.

Lemma records_ok_add_task task a s :
  consistent s → records_ok s →
  well_formed (task_id task) task → task_assignee task = a →
  task_id task = format_task_id (task_seq s + 1) →
  records_ok (add_task_store task a s).
Proof.
  intros Hs [Hwf Has] Htask Ha Hid.
  assert (record_of s (task_id task) = None) as Hnone.
  { destruct (record_of s (task_id task)) eqn:E; [|done].
    destruct (fresh_id s Hs). rewrite <-Hid. apply (cons_record s Hs). eauto. }
  split.
  - intros id t. rewrite record_of_add_task.
    case_decide; [by intros [= <-]; subst|apply Hwf].
  - intros a' id. rewrite assignee_set_add_task.
    setoid_rewrite record_of_add_task. rewrite <-Ha.
    assert (id = task_id task ∨ id ≠ task_id task) as [->|Hne]
      by (destruct (decide (id = task_id task)); auto).
    + case_decide as Hd.
      * destruct Hd as [Hd Hne']. split; [|set_solver].
        intros _. split; [done|]. exists task. by rewrite decide_True.
      * split.
        -- intros Hin. apply Has in Hin as (_ & t & Ht & _). congruence.
        -- intros (Hne' & t & Ht & Hta). rewrite decide_True in Ht by done.
           simplify_eq. destruct Hd. done.
    + assert (id ∈ (if decide (task_assignee task = Some a' ∧ a' ≠ "")
                    then {[task_id task]} ∪ assignee_set s a'
                    else assignee_set s a') ↔ id ∈ assignee_set s a') as ->.
      { case_decide; set_solver. }
      rewrite Has. split; intros (Hne' & t & Ht & Hta); (split; [done|]);
        exists t; [by rewrite decide_False|by rewrite decide_False in Ht].
Qed.

Lemma records_ok_move_task id t task s :
  records_ok s → record_of s id = Some t →
  well_formed id task → task_assignee task = task_assignee t →
  records_ok (move_task_store id task s).
Proof.
  intros [Hwf Has] Hrec Htask Ha. split.
  - intros id' t'. rewrite record_of_move_task.
    case_decide; [by intros [= <-]; subst|apply Hwf].
  - intros a id'. rewrite assignee_set_move_task, Has.
    setoid_rewrite record_of_move_task.
    assert (id' = id ∨ id' ≠ id) as [->|Hne]
      by (destruct (decide (id' = id)); auto).
    + split; intros (Hne' & t' & Ht' & Hta); (split; [done|]).
      * exists task. rewrite decide_True by done. split; [done|]. congruence.
      * exists t. split; [done|]. rewrite decide_True in Ht' by done.
        simplify_eq. congruence.
    + split; intros (Hne' & t' & Ht' & Hta); (split; [done|]); exists t';
        [by rewrite decide_False|by rewrite decide_False in Ht'].
Qed.

Lemma apply_records_ok now isAdmin o w r w' :
  consistent (store w) → records_ok (store w) →
  apply now isAdmin o w = (r, w') → records_ok (store w').
Proof.
  intros Hs Hok H. apply apply_detail in H
    as [(e & _ & _ & [-> | ->])
       |[(signer & params & t & d & _ & _ & _ & Hl & _ & Hld & _ & ->)
       |[(signer & id & t & _ & _ & Hrec & Hst & Hauth & _ & ->)
        |(signer & id & t & _ & _ & Hrec & Hst & Hauth & _ & ->)]]]; simpl.
  - done.
  - destruct Hok as [Hwf Has]. by split.
  - apply records_ok_add_task; try done.
    by apply well_formed_new_task.
  - eapply records_ok_move_task; try done.
    apply well_formed_completed; [by apply (ok_wf _ Hok)|done..].
  - eapply records_ok_move_task; try done.
    apply well_formed_cancelled; [by apply (ok_wf _ Hok)|done].
Qed.

Lemma history_records_ok w ids : history w ids → records_ok (store w).
Proof.
  induction 1 as [|w ids now isAdmin o r w' Hw IH H].
  - apply records_ok_empty.
  - eapply apply_records_ok; [by eapply history_consistent|done..].
Qed.
(** ** Reading back what a transaction wrote *)

(** Runs [k] on the result and the world of a successful concrete run. *)
Ltac on_outcome run k :=
  let o := eval vm_compute in run in
  match o with
  | (Ok ?r, ?w) => k r w
  end.

Lemma format_task_id_nonempty n : format_task_id n ≠ "".
Proof. unfold format_task_id. discriminate. Qed.

Lemma get_task_found id t w :
  id ≠ "" → record_of (store w) id = Some t → get_task id w = (Ok t, w).
Proof.
  intros Hid Hrec. unfold get_task, truthy_str, record_of in *.
  rewrite bool_decide_eq_false_2 by done. simpl. step_handler.
  by rewrite Hrec.
Qed.



(** X1: the task a successful transaction returns is the task [get_task]
    then returns for the returned id, and [get_task] leaves the world as it
    is. *)
Theorem transaction_then_get_task now isAdmin o w r w' :
  apply now isAdmin o w = (Ok r, w') →
  get_task (res_id r) w' = (Ok (res_task r), w').
Proof.
  intros H. apply apply_detail in H
    as [(e & ? & _)
       |[(signer & params & t & d & _ & _ & _ & _ & _ & _ & Hr & ->)
       |[(signer & id & t & _ & Hid & _ & _ & _ & Hr & ->)
        |(signer & id & t & _ & Hid & _ & _ & _ & Hr & ->)]]];
    simplify_eq/=.
  - apply get_task_found; [apply format_task_id_nonempty|]. simpl.
    rewrite record_of_add_task. by rewrite decide_True.
  - apply get_task_found; [done|]. simpl.
    rewrite record_of_move_task. by rewrite decide_True.
  - apply get_task_found; [done|]. simpl.
    rewrite record_of_move_task. by rewrite decide_True.
Qed.

Lemma transaction_then_get_task_witness :
  ∃ r w', apply scenario_clock scenario_admin (CancelTask "root" "task_000002")
            (world_after 6) = (Ok r, w') ∧
          get_task (res_id r) w' = (Ok (res_task r), w').
Proof.
  on_outcome (apply scenario_clock scenario_admin
                (CancelTask "root" "task_000002") (world_after 6))
    ltac:(fun r w' =>
      exists r, w'; split; [vm_compute; reflexivity|];
      apply (transaction_then_get_task scenario_clock scenario_admin
               (CancelTask "root" "task_000002") (world_after 6) r w');
      vm_compute; reflexivity).
Defined.



(** ** Transitions *)

(** X3: on an existing open task [complete_task] succeeds exactly when the
    signer is the creator or the assignee.  On success it reads the clock
    once into [updated_at], sets the status to completed and
    [completed_by] to the signer, keeps every other field of the record,
    moves the id from [tasks:open] to [tasks:completed], and leaves
    [tasks:all] and the counter alone. *)
Theorem complete_task_effect now isAdmin signer id t w :
  id ≠ "" → record_of (store w) id = Some t → task_status t = Open →
  let res := apply now isAdmin (CompleteTask signer id) w in
  ((∃ r w', res = (Ok r, w'))
   ↔ task_creator t = signer ∨ task_assignee t = Some signer) ∧
  (∀ r w', res = (Ok r, w') →
     res_id r = id ∧
     res_task r = mark_completed t (now (ticks w)) signer ∧
     task_status (res_task r) = Completed ∧
     task_completed_by (res_task r) = Some signer ∧
     task_updated_at (res_task r) = now (ticks w) ∧
     task_id (res_task r) = task_id t ∧
     task_title (res_task r) = task_title t ∧
     task_desc (res_task r) = task_desc t ∧
     task_assignee (res_task r) = task_assignee t ∧
     task_creator (res_task r) = task_creator t ∧
     task_created_at (res_task r) = task_created_at t ∧
     record_of (store w') id = Some (res_task r) ∧
     (id ∉ status_set (store w') Open) ∧
     (id ∈ status_set (store w') Completed) ∧
     status_set (store w') Cancelled = status_set (store w) Cancelled ∧
     all_ids (store w') = all_ids (store w) ∧
     task_seq (store w') = task_seq (store w) ∧
     ticks w' = S (ticks w)).
Proof.
  intros Hid Hrec Hst res. subst res. simpl. split; [split|].
  - intros (r & w' & H).
    destruct (complete_task_cases now signer id w)
      as [[_ E]|[(_ & _ & E)|[(t' & _ & _ & _ & E)|[(t' & _ & _ & _ & _ & _ & E)
          |(t' & _ & Hrec' & _ & Hauth & E)]]]]; simpl in E;
      rewrite E in H; simplify_eq. done.
  - intros Hauth. rewrite (complete_task_ok now signer id t w) by done. eauto.
  - intros r w' H.
    destruct (complete_task_cases now signer id w)
      as [[_ E]|[(_ & _ & E)|[(t' & _ & _ & _ & E)|[(t' & _ & _ & _ & _ & _ & E)
          |(t' & _ & Hrec' & _ & Hauth & E)]]]]; simpl in E;
      rewrite E in H; simplify_eq. simpl.
    rewrite record_of_move_task, decide_True by done.
    rewrite !status_set_move_task, all_ids_move_task by done. simpl.
    repeat split; set_solver.
Qed.

Lemma complete_task_effect_witness :
  (* the assignee of task_000002 is B, its creator A *)
  ∃ r w', apply scenario_clock scenario_admin (CompleteTask "B" "task_000002")
            (world_after 5) = (Ok r, w') ∧
          task_completed_by (res_task r) = Some "B".
Proof.
  assert ("task_000002" ≠ "") as H2 by discriminate.
  on_record (world_after 5) "task_000002" ltac:(fun t =>
    pose proof (cancel_or_complete :=
      complete_task_effect scenario_clock scenario_admin "B" "task_000002" t
        (world_after 5) H2 ltac:(vm_compute; reflexivity)
        ltac:(vm_compute; reflexivity))).
  simpl in cancel_or_complete. destruct cancel_or_complete as [Hiff Heff].
  destruct (proj2 Hiff (or_intror eq_refl)) as (r & w' & H).
  exists r, w'. split; [exact H|]. apply (Heff r w' H).
Defined.

(** X4: [cancel_task] checks existence and then the status, as
    [complete_task] does, before it looks at the signer: on an id without a
    record it throws the not-found error, and on a task that is not open
    it throws [Task <id> is not open], without the status, for every
    signer, the creator and admins included.  So a completed task cannot
    be cancelled, and a cancelled task can be neither completed nor
    cancelled again. *)
Theorem cancel_task_preconditions now isAdmin signer id w :
  id ≠ "" →
  let res := apply now isAdmin (CancelTask signer id) w in
  (record_of (store w) id = None →
   let e := Error ("Task " +:+ id +:+ " not found") in
   res = (Throw e, w) ∧ raised_as e NotFoundError) ∧
  (∀ t, record_of (store w) id = Some t → task_status t ≠ Open →
        let e := Error ("Task " +:+ id +:+ " is not open") in
        res = (Throw e, w) ∧ raised_as e InvalidStateError) ∧
  (∀ signer0 r w1 signer',
     apply now isAdmin (CompleteTask signer0 id) w = (Ok r, w1) →
     apply now isAdmin (CancelTask signer' id) w1
     = (Throw (Error ("Task " +:+ id +:+ " is not open")), w1)) ∧
  (∀ r w1 signer',
     res = (Ok r, w1) →
     apply now isAdmin (CancelTask signer' id) w1
     = (Throw (Error ("Task " +:+ id +:+ " is not open")), w1) ∧
     apply now isAdmin (CompleteTask signer' id) w1
     = (Throw (Error ("Task " +:+ id
                       +:+ " is not open (status: cancelled)")), w1)).
Proof.
  intros Hid res. subst res. simpl. split; [|split; [|split]].
  - intros Hrec. split; [by apply cancel_task_not_found|constructor].
  - intros t Hrec Hst.
    split; [by apply (cancel_task_not_open _ _ _ _ t)|constructor].
  - intros signer0 r w1 signer' H.
    destruct (complete_task_cases now signer0 id w)
      as [[_ E]|[(_ & _ & E)|[(t & _ & _ & _ & E)|[(t & _ & _ & _ & _ & _ & E)
          |(t & _ & Hrec & Hst & _ & E)]]]]; simpl in E;
      rewrite E in H; simplify_eq.
    apply (cancel_task_not_open _ _ _ _
             (mark_completed t (now (ticks w)) signer0)); [done| |done].
    simpl. rewrite record_of_move_task. by rewrite decide_True.
  - intros r w1 signer' H.
    destruct (cancel_task_cases now isAdmin signer id w)
      as [[_ E]|[(_ & _ & E)|[(t & _ & _ & _ & E)|[(t & _ & _ & _ & _ & _ & E)
          |(t & _ & Hrec & Hst & _ & E)]]]]; simpl in E;
      rewrite E in H; simplify_eq.
    assert (record_of
              (store (sent id Cancelled w
                        (move_task_store id
                           (mark_cancelled t (now (ticks w)) signer) (store w))
                        (S (ticks w)))) id
            = Some (mark_cancelled t (now (ticks w)) signer)) as Hrec'.
    { simpl. rewrite record_of_move_task. by rewrite decide_True. }
    split.
    + by apply (cancel_task_not_open _ _ _ _ _ _ Hid Hrec').
    + by rewrite (complete_task_not_open _ _ _ _ _ Hid Hrec').
Qed.

Lemma cancel_task_preconditions_witness :
  apply scenario_clock scenario_admin (CancelTask "root" "task_000007")
    (world_after 5)
  = (Throw (Error "Task task_000007 not found"), world_after 5) ∧
  (* task_000001 is completed, A is its creator, root an admin *)
  apply scenario_clock scenario_admin (CancelTask "A" "task_000001")
    (world_after 5)
  = (Throw (Error "Task task_000001 is not open"), world_after 5) ∧
  apply scenario_clock scenario_admin (CancelTask "root" "task_000001")
    (world_after 3)
  = (Throw (Error "Task task_000001 is not open"), world_after 3) ∧
  apply scenario_clock scenario_admin (CompleteTask "A" "task_000002")
    (world_after 7)
  = (Throw (Error "Task task_000002 is not open (status: cancelled)"),
     world_after 7).
Proof.
  assert ("task_000001" ≠ "") as H1 by discriminate.
  assert ("task_000002" ≠ "") as H2 by discriminate.
  assert ("task_000007" ≠ "") as H7 by discriminate.
  split; [|split; [|split]].
  - apply (proj1 (cancel_task_preconditions scenario_clock scenario_admin
                    "root" "task_000007" (world_after 5) H7)).
    vm_compute. reflexivity.
  - on_record (world_after 5) "task_000001" ltac:(fun t =>
      refine (proj1 (proj1 (proj2 (cancel_task_preconditions scenario_clock
                scenario_admin "A" "task_000001" (world_after 5) H1)) t _ _)));
      [vm_compute; reflexivity|vm_compute; discriminate].
  - on_outcome (apply scenario_clock scenario_admin
                  (CompleteTask "A" "task_000001") (world_after 2))
      ltac:(fun r w1 =>
        change (world_after 3) with w1;
        refine (proj1 (proj2 (proj2 (cancel_task_preconditions scenario_clock
                  scenario_admin "A" "task_000001" (world_after 2) H1)))
                  "A" r w1 "root" _));
      vm_compute; reflexivity.
  - on_outcome (apply scenario_clock scenario_admin
                  (CancelTask "root" "task_000002") (world_after 6))
      ltac:(fun r w1 =>
        change (world_after 7) with w1;
        refine (proj2 (proj2 (proj2 (proj2 (cancel_task_preconditions
                  scenario_clock scenario_admin "root" "task_000002"
                  (world_after 6) H2))) r w1 "A" _)));
      vm_compute; reflexivity.
Defined.

(** ** What an operation leaves alone *)

(** X5: an operation never deletes a record and never touches the id,
    title, desc, assignee, creator or [created_at] of a task on record.
    It changes a record only by moving the open task it addresses to
    completed or cancelled, and the changed record is the one it returns;
    a task that is completed or cancelled is never changed again. *)
Theorem apply_frame now isAdmin o w r w' id t :
  consistent (store w) →
  apply now isAdmin o w = (r, w') →
  record_of (store w) id = Some t →
  ∃ t', record_of (store w') id = Some t' ∧
        task_id t' = task_id t ∧ task_title t' = task_title t ∧
        task_desc t' = task_desc t ∧ task_assignee t' = task_assignee t ∧
        task_creator t' = task_creator t ∧
        task_created_at t' = task_created_at t ∧
        (t' = t ∨
         (task_status t = Open ∧ task_status t' ≠ Open ∧
          (∃ signer, o = CompleteTask signer id ∨ o = CancelTask signer id) ∧
          ∃ res, r = Ok res ∧ res_task res = t')).
Proof.
  intros Hs H Hrec. apply apply_detail in H
    as [(e & _ & _ & [-> | ->])
       |[(signer & params & tt & d & _ & _ & _ & _ & _ & _ & _ & ->)
       |[(signer & id' & t0 & -> & _ & Hrec0 & Hst & _ & -> & ->)
        |(signer & id' & t0 & -> & _ & Hrec0 & Hst & _ & -> & ->)]]]; simpl.
  - exists t. by repeat split; auto.
  - exists t. by repeat split; auto.
  - exists t. rewrite record_of_add_task. rewrite decide_False; [by repeat split; auto|].
    intros ->. destruct (fresh_id _ Hs). apply (cons_record _ Hs). eauto.
  - rewrite record_of_move_task. case_decide as Heq.
    + subst id'. rewrite Hrec in Hrec0. simplify_eq.
      eexists. split; [done|]. repeat split. right. repeat split; [done|done|eauto|eauto].
    + exists t. by repeat split; auto.
  - rewrite record_of_move_task. case_decide as Heq.
    + subst id'. rewrite Hrec in Hrec0. simplify_eq.
      eexists. split; [done|]. repeat split. right. repeat split; [done|done|eauto|eauto].
    + exists t. by repeat split; auto.
Qed.

Lemma apply_frame_witness :
  (* cancelling task_000002 leaves the completed task_000001 as it is *)
  ∃ t', record_of (store (world_after 7)) "task_000001" = Some t' ∧
        task_status t' = Completed ∧ task_completed_by t' = Some "A".
Proof.
  assert (consistent (store (world_after 6))) as Hs.
  { apply (history_consistent _ _
             (history_run scenario_clock scenario_admin (take 6 scenario)
                empty_world [] history_init)). }
  on_record (world_after 6) "task_000001" ltac:(fun t =>
    on_outcome (apply scenario_clock scenario_admin
                  (CancelTask "root" "task_000002") (world_after 6))
      ltac:(fun r w1 =>
        destruct (apply_frame scenario_clock scenario_admin
                    (CancelTask "root" "task_000002") (world_after 6) (Ok r) w1
                    "task_000001" t Hs ltac:(vm_compute; reflexivity)
                    ltac:(vm_compute; reflexivity))
          as (t' & Hrec' & _ & _ & _ & _ & _ & _ & Hsame);
        change (world_after 7) with w1)).
  exists t'. split; [exact Hrec'|].
  destruct Hsame as [->|(Hopen & _)]; [split; reflexivity|discriminate Hopen].
Defined.

(** X6: an operation puts one [task_update] notification in front of the
    sidechannel outbox when it succeeds, naming the id and the new status
    of the task it returns, and none when it throws.  Along a log the
    outbox grows by the notifications of the successful operations, newest
    first. *)
Theorem notification_per_success now isAdmin ops w :
  (∀ o, outbox (snd (apply now isAdmin o w))
        = option_list (note_of (fst (apply now isAdmin o w))) ++ outbox w) ∧
  outbox (snd (run now isAdmin ops w))
  = reverse (omap note_of (fst (run now isAdmin ops w))) ++ outbox w.
Proof.
  assert (∀ o w, outbox (snd (apply now isAdmin o w))
                 = option_list (note_of (fst (apply now isAdmin o w)))
                   ++ outbox w) as Hone.
  { clear. intros o w. destruct (apply now isAdmin o w) as [r w'] eqn:H.
    apply apply_detail in H
      as [(e & -> & Hout & _)
         |[(signer & params & t & d & _ & _ & _ & _ & _ & _ & -> & ->)
         |[(signer & id & t & _ & _ & _ & _ & _ & -> & ->)
          |(signer & id & t & _ & _ & _ & _ & _ & -> & ->)]]]; done. }
  split; [intros o; apply Hone|].
  revert w. induction ops as [|o ops IH]; intros w; simpl; [done|].
  specialize (Hone o w). destruct (apply now isAdmin o w) as [r w'].
  specialize (IH w'). destruct (run now isAdmin ops w') as [rs w''].
  simpl in *. rewrite IH, Hone.
  destruct (note_of r) as [n|]; simpl; [|done].
  rewrite reverse_cons, <-app_assoc. done.
Qed.

(** ** The shape of stored records *)



(** X8: in a world reached from the empty store, an open task has neither
    [completed_by] nor [cancelled_by]; a completed task has no
    [cancelled_by] and a [completed_by] that is its creator or its
    assignee; a cancelled task has a [cancelled_by] and no
    [completed_by]. *)
Theorem terminal_marks w ids id t :
  history w ids → record_of (store w) id = Some t →
  match task_status t with
  | Open => task_completed_by t = None ∧ task_cancelled_by t = None
  | Completed =>
      task_cancelled_by t = None ∧
      ∃ who, task_completed_by t = Some who ∧
             (task_creator t = who ∨ task_assignee t = Some who)
  | Cancelled =>
      task_completed_by t = None ∧ ∃ who, task_cancelled_by t = Some who
  end.
Proof.
  intros Hw Hrec. pose proof (history_records_ok w ids Hw) as Hok.
  destruct (ok_wf _ Hok id t Hrec) as [_ _ _ Ho Hc Hx].
  destruct (task_status t); auto.
Qed.

Lemma terminal_marks_witness :
  ∃ t, record_of (store scenario_world) "task_000001" = Some t ∧
       task_cancelled_by t = None ∧
       ∃ who, task_completed_by t = Some who ∧
              (task_creator t = who ∨ task_assignee t = Some who).
Proof.
  pose proof (history_run scenario_clock scenario_admin scenario empty_world []
                history_init) as Hw.
  on_record scenario_world "task_000001" ltac:(fun t =>
    exists t;
    assert (record_of (store scenario_world) "task_000001" = Some t) as Hrec
      by (vm_compute; reflexivity);
    pose proof (terminal_marks _ _ "task_000001" t Hw Hrec) as Hmarks).
  split; [exact Hrec|]. exact Hmarks.
Defined.

(** ** Listings *)










(** ** The clock *)

Lemma erase_store_set k t s :
  erase_store (store_set k t s) = store_set k (erase_times t) (erase_store s).
Proof. unfold erase_store, store_set. simpl. by rewrite fmap_insert. Qed.

Lemma erase_store_increment k s :
  erase_store (store_increment k s) = store_increment k (erase_store s).
Proof. reflexivity. Qed.

Lemma erase_store_sadd k x s :
  erase_store (store_sadd k x s) = store_sadd k x (erase_store s).
Proof. reflexivity. Qed.

Lemma erase_store_srem k x s :
  erase_store (store_srem k x s) = store_srem k x (erase_store s).
Proof. reflexivity. Qed.

Lemma erase_store_add_task task a s :
  erase_store (add_task_store task a s)
  = add_task_store (erase_times task) a (erase_store s).
Proof.
  unfold add_task_store. simpl.
  destruct (truthy_opt a);
    by rewrite ?erase_store_sadd, erase_store_set, erase_store_increment.
Qed.

Lemma erase_store_move_task id task s :
  erase_store (move_task_store id task s)
  = move_task_store id (erase_times task) (erase_store s).
Proof.
  unfold move_task_store.
  by rewrite erase_store_sadd, erase_store_srem, erase_store_set.
Qed.

Lemma record_of_erase_store s id :
  record_of (erase_store s) id = erase_times <$> record_of s id.
Proof. unfold record_of, erase_store. simpl. apply lookup_fmap. Qed.

Lemma same_records w1 w2 id :
  same_but_times w1 w2 →
  erase_times <$> record_of (store w1) id
  = erase_times <$> record_of (store w2) id.
Proof. intros [Hs _]. by rewrite <-!record_of_erase_store, Hs. Qed.

Lemma same_task_seq w1 w2 :
  same_but_times w1 w2 → task_seq (store w1) = task_seq (store w2).
Proof.
  intros [Hs _].
  change (task_seq (erase_store (store w1)) = task_seq (erase_store (store w2))).
  by rewrite Hs.
Qed.

Lemma add_task_same_but_times now1 now2 signer params w1 w2 :
  same_but_times w1 w2 →
  erase_outcome (fst (add_task now1 signer params w1))
  = erase_outcome (fst (add_task now2 signer params w2)) ∧
  same_but_times (snd (add_task now1 signer params w1))
                 (snd (add_task now2 signer params w2)).
Proof.
  intros Hw. pose proof Hw as [Hs Ho].
  destruct params as [title desc a].
  destruct (title_cases title) as [Hm|(t & -> & Ht)].
  { rewrite !add_task_no_title by done. by split. }
  assert (∀ d,
    let task1 := new_task now1 signer (task_seq (store w1) + 1) t d a (ticks w1) in
    let task2 := new_task now2 signer (task_seq (store w2) + 1) t d a (ticks w2) in
    erase_outcome (Ok {| success := true; res_id := task_id task1;
                         res_task := task1 |})
    = erase_outcome (Ok {| success := true; res_id := task_id task2;
                           res_task := task2 |}) ∧
    same_but_times
      (sent (task_id task1) Open w1 (add_task_store task1 a (store w1))
         (S (S (ticks w1))))
      (sent (task_id task2) Open w2 (add_task_store task2 a (store w2))
         (S (S (ticks w2))))) as Hok.
  { intros d. simpl. rewrite (same_task_seq w1 w2 Hw). split; [done|].
    split; simpl; [|by rewrite Ho].
    rewrite !erase_store_add_task, Hs. done. }
  assert (same_but_times
            {| store := store_increment "task_seq" (store w1);
               ticks := ticks w1; outbox := outbox w1 |}
            {| store := store_increment "task_seq" (store w2);
               ticks := ticks w2; outbox := outbox w2 |}) as Hinc.
  { split; [|exact Ho]. exact (f_equal (store_increment "task_seq") Hs). }
  rewrite !add_task_eval by done.
  destruct (140 <? _); [by split|].
  destruct desc as [| |b|n|d|items|props]; simpl; try (by split).
  - apply Hok.
  - destruct (1000 <? _); [by split|]. apply Hok.
  - by destruct (1000 <? _).
  - destruct (no_primitive _); [by split|]. by destruct (gt_number _ _).
Qed.

Lemma same_record_None w1 w2 id :
  same_but_times w1 w2 →
  record_of (store w1) id = None → record_of (store w2) id = None.
Proof.
  intros Hw H1. pose proof (same_records w1 w2 id Hw) as H.
  rewrite H1 in H. by destruct (record_of (store w2) id).
Qed.

Lemma same_record_Some w1 w2 id t1 :
  same_but_times w1 w2 →
  record_of (store w1) id = Some t1 →
  ∃ t2, record_of (store w2) id = Some t2 ∧ erase_times t1 = erase_times t2.
Proof.
  intros Hw H1. pose proof (same_records w1 w2 id Hw) as H.
  rewrite H1 in H. destruct (record_of (store w2) id) as [t2|]; [|done].
  exists t2. split; [done|]. apply (inj Some). exact H.
Qed.

Lemma erase_times_fields t1 t2 :
  erase_times t1 = erase_times t2 →
  task_status t1 = task_status t2 ∧ task_creator t1 = task_creator t2 ∧
  task_assignee t1 = task_assignee t2.
Proof. destruct t1, t2. intros [= ]. by subst. Qed.

Lemma erase_mark_completed t1 t2 k1 k2 signer :
  erase_times t1 = erase_times t2 →
  erase_times (mark_completed t1 k1 signer)
  = erase_times (mark_completed t2 k2 signer).
Proof. destruct t1, t2. intros [= ]. by subst. Qed.

Lemma erase_mark_cancelled t1 t2 k1 k2 signer :
  erase_times t1 = erase_times t2 →
  erase_times (mark_cancelled t1 k1 signer)
  = erase_times (mark_cancelled t2 k2 signer).
Proof. destruct t1, t2. intros [= ]. by subst. Qed.

Lemma complete_task_same_but_times now1 now2 signer id w1 w2 :
  same_but_times w1 w2 →
  erase_outcome (fst (complete_task now1 signer id w1))
  = erase_outcome (fst (complete_task now2 signer id w2)) ∧
  same_but_times (snd (complete_task now1 signer id w1))
                 (snd (complete_task now2 signer id w2)).
Proof.
  intros Hw. pose proof Hw as [Hs Ho].
  destruct (complete_task_cases now1 signer id w1)
    as [[-> E]|[(Hid & Hrec & E)|[(t & Hid & Hrec & Hst & E)
       |[(t & Hid & Hrec & Hst & Hc & Ha & E)
        |(t & Hid & Hrec & Hst & Hauth & E)]]]]; simpl in E; rewrite E.
  - by rewrite complete_task_no_id.
  - by rewrite (complete_task_not_found _ _ _ w2 Hid (same_record_None _ _ _ Hw Hrec)).
  - destruct (same_record_Some _ _ _ _ Hw Hrec) as (t2 & Hrec2 & He).
    destruct (erase_times_fields _ _ He) as (Hst2 & _ & _).
    rewrite (complete_task_not_open _ _ _ t2 w2) by (done || congruence).
    by rewrite Hst2.
  - destruct (same_record_Some _ _ _ _ Hw Hrec) as (t2 & Hrec2 & He).
    destruct (erase_times_fields _ _ He) as (Hst2 & Hc2 & Ha2).
    by rewrite (complete_task_forbidden _ _ _ t2 w2) by (done || congruence).
  - destruct (same_record_Some _ _ _ _ Hw Hrec) as (t2 & Hrec2 & He).
    destruct (erase_times_fields _ _ He) as (Hst2 & Hc2 & Ha2).
    rewrite (complete_task_ok _ _ _ t2 w2);
      [|done|done|congruence|destruct Hauth; [left|right]; congruence].
    simpl. rewrite (erase_mark_completed t t2 _ (now2 (ticks w2)) signer He).
    split; [done|]. split; simpl; [|by rewrite Ho].
    rewrite !erase_store_move_task, Hs.
    by rewrite (erase_mark_completed t t2 _ (now2 (ticks w2)) signer He).
Qed.

Lemma cancel_task_same_but_times now1 now2 isAdmin signer id w1 w2 :
  same_but_times w1 w2 →
  erase_outcome (fst (cancel_task now1 isAdmin signer id w1))
  = erase_outcome (fst (cancel_task now2 isAdmin signer id w2)) ∧
  same_but_times (snd (cancel_task now1 isAdmin signer id w1))
                 (snd (cancel_task now2 isAdmin signer id w2)).
Proof.
  intros Hw. pose proof Hw as [Hs Ho].
  destruct (cancel_task_cases now1 isAdmin signer id w1)
    as [[-> E]|[(Hid & Hrec & E)|[(t & Hid & Hrec & Hst & E)
       |[(t & Hid & Hrec & Hst & Hc & Ha & E)
        |(t & Hid & Hrec & Hst & Hauth & E)]]]]; simpl in E; rewrite E.
  - by rewrite cancel_task_no_id.
  - by rewrite (cancel_task_not_found _ _ _ _ w2 Hid (same_record_None _ _ _ Hw Hrec)).
  - destruct (same_record_Some _ _ _ _ Hw Hrec) as (t2 & Hrec2 & He).
    destruct (erase_times_fields _ _ He) as (Hst2 & _ & _).
    by rewrite (cancel_task_not_open _ _ _ _ t2 w2) by (done || congruence).
  - destruct (same_record_Some _ _ _ _ Hw Hrec) as (t2 & Hrec2 & He).
    destruct (erase_times_fields _ _ He) as (Hst2 & Hc2 & Ha2).
    by rewrite (cancel_task_forbidden _ _ _ _ t2 w2) by (done || congruence).
  - destruct (same_record_Some _ _ _ _ Hw Hrec) as (t2 & Hrec2 & He).
    destruct (erase_times_fields _ _ He) as (Hst2 & Hc2 & Ha2).
    rewrite (cancel_task_ok _ _ _ _ t2 w2);
      [|done|done|congruence|destruct Hauth; [left; congruence|by right]].
    simpl. rewrite (erase_mark_cancelled t t2 _ (now2 (ticks w2)) signer He).
    split; [done|]. split; simpl; [|by rewrite Ho].
    rewrite !erase_store_move_task, Hs.
    by rewrite (erase_mark_cancelled t t2 _ (now2 (ticks w2)) signer He).
Qed.

(** X11: the clock reaches the replicated state through the
    [created_at] and [updated_at] fields only.  Two nodes that apply the
    same log under the same admin membership, from worlds that agree up to
    clock readings, report the same outcomes and end in worlds that agree
    up to clock readings, whatever their clocks read: same errors, same
    ids, same records apart from the two timestamps, same index sets, same
    counter, same notifications. *)
Theorem clock_only_in_timestamps now1 now2 isAdmin ops w1 w2 :
  same_but_times w1 w2 →
  erase_outcome <$> fst (run now1 isAdmin ops w1)
  = erase_outcome <$> fst (run now2 isAdmin ops w2) ∧
  same_but_times (snd (run now1 isAdmin ops w1)) (snd (run now2 isAdmin ops w2)).
Proof.
  revert w1 w2. induction ops as [|o ops IH]; intros w1 w2 Hw; simpl; [done|].
  assert (erase_outcome (fst (apply now1 isAdmin o w1))
          = erase_outcome (fst (apply now2 isAdmin o w2)) ∧
          same_but_times (snd (apply now1 isAdmin o w1))
                         (snd (apply now2 isAdmin o w2))) as [Hr Hw'].
  { destruct o as [signer params|signer id|signer id]; simpl.
    - by apply add_task_same_but_times.
    - by apply complete_task_same_but_times.
    - by apply cancel_task_same_but_times. }
  destruct (apply now1 isAdmin o w1) as [r1 w1'].
  destruct (apply now2 isAdmin o w2) as [r2 w2']. cbn [fst snd] in *.
  specialize (IH w1' w2' Hw').
  destruct (run now1 isAdmin ops w1') as [rs1 w1''].
  destruct (run now2 isAdmin ops w2') as [rs2 w2'']. cbn [fst snd] in *.
  destruct IH as [IH1 IH2]. split; [|done]. rewrite !fmap_cons. by f_equal.
Qed.

Lemma clock_only_in_timestamps_witness :
  erase_store (store (snd (run (λ _, 1000) scenario_admin scenario empty_world)))
  = erase_store (store scenario_world).
Proof.
  apply (clock_only_in_timestamps (λ _, 1000) scenario_clock scenario_admin
           scenario empty_world empty_world).
  split; reflexivity.
Defined.

(** * The command line *)

(** ** Strings *)

Lemma app_assoc_str s1 s2 s3 : (s1 +:+ s2) +:+ s3 = s1 +:+ (s2 +:+ s3).
Proof. induction s1 as [|c s1 IH]; [done|]. rewrite ?app_cons. by rewrite IH. Qed.

Lemma app_nil_r_str s : s +:+ "" = s.
Proof. induction s as [|c s IH]; [done|]. rewrite ?app_cons. by rewrite IH. Qed.

Lemma all_chars_app p s1 s2 :
  all_chars p (s1 +:+ s2) = all_chars p s1 && all_chars p s2.
Proof.
  induction s1 as [|c s1 IH]; [done|]. rewrite ?app_cons. simpl.
  rewrite IH. by rewrite andb_assoc.
Qed.

Lemma strip_prefix_app p rest : strip_prefix p (p +:+ rest) = Some rest.
Proof.
  induction p as [|c p IH]; [by destruct rest|]. rewrite ?app_cons. simpl.
  by rewrite bool_decide_eq_true_2.
Qed.

Lemma strip_prefix_Some p s rest : strip_prefix p s = Some rest → s = p +:+ rest.
Proof.
  revert s. induction p as [|c p IH]; intros s; simpl.
  - by intros [= ->].
  - destruct s as [|b s]; [done|]. case_bool_decide; [|done].
    intros Hs%IH. subst. by rewrite ?app_cons.
Qed.

Lemma trim_start_split s :
  ∃ ws, all_chars is_white ws = true ∧ s = ws +:+ trim_start s.
Proof.
  induction s as [|c s (ws & Hws & IH)]; simpl; [by exists ""|].
  destruct (is_white c) eqn:Hc.
  - exists (String c ws). simpl. rewrite Hc, Hws. split; [done|].
    rewrite ?app_cons. by rewrite <-IH.
  - by exists "".
Qed.

Lemma trim_start_head s :
  trim_start s = "" ∨ ∃ c r, trim_start s = String c r ∧ is_white c = false.
Proof.
  induction s as [|c s IH]; simpl; [by left|].
  destruct (is_white c) eqn:Hc; [done|]. right. eauto.
Qed.

Lemma trim_start_app ws s :
  all_chars is_white ws = true → trim_start (ws +:+ s) = trim_start s.
Proof.
  induction ws as [|c ws IH]; [done|]. simpl.
  intros [Hc Hws]%andb_true_iff. rewrite ?app_cons. simpl. rewrite Hc. auto.
Qed.

Lemma trim_start_fixed c r :
  is_white c = false → trim_start (String c r) = String c r.
Proof. intros Hc. simpl. by rewrite Hc. Qed.

Lemma spaces1_Some s rest :
  spaces1 s = Some rest →
  ∃ ws, ws ≠ "" ∧ all_chars is_white ws = true ∧ s = ws +:+ rest ∧
        (rest = "" ∨ ∃ c r, rest = String c r ∧ is_white c = false).
Proof.
  destruct s as [|c s]; simpl; [done|].
  destruct (is_white c) eqn:Hc; [|done]. intros [= <-].
  destruct (trim_start_split s) as (ws & Hws & Hs).
  exists (String c ws). simpl. rewrite Hc, Hws, app_cons, <-Hs.
  repeat split; [done|]. apply trim_start_head.
Qed.

Lemma spaces1_app ws c r :
  ws ≠ "" → all_chars is_white ws = true → is_white c = false →
  spaces1 (ws +:+ String c r) = Some (String c r).
Proof.
  destruct ws as [|b ws]; [done|]. simpl.
  intros _ [Hb Hws]%andb_true_iff Hc. rewrite ?app_cons. simpl. rewrite Hb.
  by rewrite (trim_start_app ws _ Hws), trim_start_fixed.
Qed.

Lemma until_quote_Some s v :
  until_quote s = Some v →
  all_chars not_quote v = true ∧ ∃ post, s = v +:+ String dquote post.
Proof.
  revert v. induction s as [|c s IH]; intros v; simpl; [done|].
  case_bool_decide as Hc.
  - intros [= <-]. split; [done|]. exists s. by subst.
  - destruct (until_quote s) as [v'|]; simpl; [|done]. intros [= <-].
    destruct (IH v' eq_refl) as (Hv & post & ->). split.
    + simpl. unfold not_quote at 1. by rewrite bool_decide_eq_false_2.
    + exists post. by rewrite ?app_cons.
Qed.

Lemma until_quote_app v post :
  all_chars not_quote v = true →
  until_quote (v +:+ String dquote post) = Some v.
Proof.
  induction v as [|c v IH]; simpl.
  - intros _. rewrite ?app_nil_l. simpl. by rewrite ?bool_decide_eq_true_2.
  - intros [Hc Hv]%andb_true_iff. rewrite ?app_cons. simpl.
    unfold not_quote in Hc. apply negb_true_iff in Hc. rewrite Hc.
    by rewrite IH.
Qed.

Lemma non_spaces_split s :
  all_chars not_white (non_spaces s) = true ∧
  ∃ post, s = non_spaces s +:+ post ∧
          (post = "" ∨ ∃ c r, post = String c r ∧ is_white c = true).
Proof.
  induction s as [|c s (Hv & post & Hs & Hpost)]; simpl.
  - split; [done|]. exists "". auto.
  - destruct (is_white c) eqn:Hc; simpl.
    + split; [done|]. exists (String c s). rewrite ?app_nil_l.
      split; [done|]. right. by exists c, s.
    + unfold not_white at 1. rewrite Hc, Hv. split; [done|].
      exists post. rewrite ?app_cons. by rewrite <-Hs.
Qed.

Lemma non_spaces_app v post :
  all_chars not_white v = true →
  (post = "" ∨ ∃ c r, post = String c r ∧ is_white c = true) →
  non_spaces (v +:+ post) = v.
Proof.
  intros Hv Hpost. induction v as [|c v IH]; simpl.
  - rewrite ?app_nil_l. destruct Hpost as [->|(c & r & -> & Hc)]; [done|].
    simpl. by rewrite Hc.
  - simpl in Hv. apply andb_true_iff in Hv as [Hc Hv]. rewrite ?app_cons. simpl.
    unfold not_white in Hc. apply negb_true_iff in Hc. rewrite Hc.
    by rewrite IH.
Qed.

(** ** Matching *)

Lemma first_match_Some m s v :
  first_match m s = Some v → ∃ pre rest, s = pre +:+ rest ∧ m rest = Some v.
Proof.
  induction s as [|c s IH]; simpl.
  - destruct (m "") eqn:E; [|done]. intros [= <-]. by exists "", "".
  - destruct (m (String c s)) eqn:E.
    + intros [= <-]. by exists "", (String c s).
    + intros (pre & rest & -> & Hm)%IH. exists (String c pre), rest.
      by rewrite ?app_cons.
Qed.

Lemma first_match_here m s v : m s = Some v → first_match m s = Some v.
Proof. intros H. destruct s; simpl; by rewrite H. Qed.

Lemma match_at_head value f fl c s :
  c ≠ f → match_at value (String f fl) (String c s) = None.
Proof.
  intros Hc. unfold match_at. simpl. rewrite bool_decide_eq_false_2; [done|].
  congruence.
Qed.

Lemma first_match_skip value f fl pre s :
  all_chars (λ c, negb (bool_decide (c = f))) pre = true →
  first_match (match_at value (String f fl)) (pre +:+ s)
  = first_match (match_at value (String f fl)) s.
Proof.
  induction pre as [|c pre IH]; [done|]. simpl.
  intros [Hc Hpre]%andb_true_iff. rewrite ?app_cons.
  apply negb_true_iff, bool_decide_eq_false in Hc.
  cbn [first_match]. rewrite match_at_head by done. auto.
Qed.

Lemma match_at_Some value flag s v :
  match_at value flag s = Some v →
  ∃ ws rest, ws ≠ "" ∧ all_chars is_white ws = true ∧
             s = flag +:+ ws +:+ rest ∧ value rest = Some v ∧
             (rest = "" ∨ ∃ c r, rest = String c r ∧ is_white c = false).
Proof.
  unfold match_at. destruct (strip_prefix flag s) as [rest|] eqn:Hp; [|done].
  destruct (spaces1 rest) as [rest'|] eqn:Hs; [|done]. intros Hv.
  apply strip_prefix_Some in Hp as ->.
  apply spaces1_Some in Hs as (ws & Hne & Hws & -> & Hhead).
  by exists ws, rest'.
Qed.

Lemma quoted_value_Some s v :
  quoted_value s = Some v →
  v ≠ "" ∧ all_chars not_quote v = true ∧ ∃ post, s = in_quotes v +:+ post.
Proof.
  destruct s as [|c s]; simpl; [done|]. case_bool_decide as Hc; [|done].
  destruct (until_quote s) as [v'|] eqn:Hu; [|done].
  case_bool_decide as Hv; [done|]. intros [= <-].
  apply until_quote_Some in Hu as (Hq & post & ->).
  repeat split; [done..|]. exists post. unfold in_quotes. subst c.
  rewrite ?app_cons, app_assoc_str, app_cons. done.
Qed.

Lemma plain_value_Some s v :
  plain_value s = Some v →
  v ≠ "" ∧ all_chars not_white v = true ∧
  ∃ post, s = v +:+ post ∧
          (post = "" ∨ ∃ c r, post = String c r ∧ is_white c = true).
Proof.
  unfold plain_value. case_bool_decide as Hv; [done|]. intros [= <-].
  split; [done|]. apply non_spaces_split.
Qed.

(** X12: for a flag that holds no character special to a regular
    expression, as every flag of the call sites, what [parseArg] returns
    is never empty and is taken from the input right behind an occurrence
    of the flag and a run of white space: either the text between two
    double quotes, itself free of double quotes, or a run of characters
    free of white space that ends at the next white space or at the end
    of the input. *)
Theorem parseArg_sound input flag v :
  literal_flag flag = true →
  parseArg input flag = Some v →
  v ≠ "" ∧
  ∃ pre ws post,
    ws ≠ "" ∧ all_chars is_white ws = true ∧
    ((input = pre +:+ flag +:+ ws +:+ in_quotes v +:+ post ∧
      all_chars not_quote v = true) ∨
     (input = pre +:+ flag +:+ ws +:+ v +:+ post ∧
      all_chars not_white v = true ∧
      (post = "" ∨ ∃ c r, post = String c r ∧ is_white c = true))).
Proof.
  intros _. unfold parseArg.
  destruct (first_match (match_at quoted_value flag) input) as [v'|] eqn:Hq.
  - intros [= ->].
    apply first_match_Some in Hq as (pre & rest & -> & Hm).
    apply match_at_Some in Hm as (ws & rest' & Hne & Hws & -> & Hv & _).
    apply quoted_value_Some in Hv as (Hv & Hnq & post & ->).
    split; [done|]. exists pre, ws, post. repeat split; [done..|]. by left.
  - intros Hp.
    apply first_match_Some in Hp as (pre & rest & -> & Hm).
    apply match_at_Some in Hm as (ws & rest' & Hne & Hws & -> & Hv & _).
    apply plain_value_Some in Hv as (Hv & Hnw & post & -> & Hpost).
    split; [done|]. exists pre, ws, post. repeat split; [done..|]. by right.
Qed.

Lemma parseArg_sound_witness :
  let input := "/add_task --title " +:+ in_quotes "Write spec"
               +:+ " --assignee trac1abc" in
  Forall (λ flag, literal_flag flag = true) cli_flags ∧
  parseArg input "--title" = Some "Write spec" ∧ "Write spec" ≠ "" ∧
  parseArg input "--assignee" = Some "trac1abc" ∧ "trac1abc" ≠ "".
Proof.
  intros input.
  assert (Forall (λ flag, literal_flag flag = true) cli_flags) as Hflags
    by (repeat constructor).
  assert (parseArg input "--title" = Some "Write spec") as H1
    by (vm_compute; reflexivity).
  assert (parseArg input "--assignee" = Some "trac1abc") as H2
    by (vm_compute; reflexivity).
  split; [exact Hflags|].
  split; [exact H1|].
  split; [exact (proj1 (parseArg_sound _ "--title" _ eq_refl H1))|].
  split; [exact H2|].
  exact (proj1 (parseArg_sound _ "--assignee" _ eq_refl H2)).
Defined.

Lemma all_not_quote_suffix pre s :
  all_chars not_quote (pre +:+ s) = true → all_chars not_quote s = true.
Proof. rewrite all_chars_app. by intros [_ ?]%andb_true_iff. Qed.

Lemma quoted_has_quote v post :
  all_chars not_quote (in_quotes v +:+ post) = false.
Proof. reflexivity. Qed.

Lemma quoted_never_matches flag s :
  all_chars not_quote s = true →
  first_match (match_at quoted_value flag) s = None.
Proof.
  assert (∀ s, all_chars not_quote s = true →
               match_at quoted_value flag s = None) as Hat.
  { clear s. intros s Hs.
    destruct (match_at quoted_value flag s) as [v|] eqn:Hm; [|done].
    apply match_at_Some in Hm as (ws & rest & _ & _ & -> & Hv & _).
    apply quoted_value_Some in Hv as (_ & _ & post & ->).
    rewrite 2!all_chars_app, quoted_has_quote in Hs.
    by rewrite !andb_false_r in Hs. }
  induction s as [|c s IH]; intros Hs; simpl.
  - by rewrite (Hat "").
  - rewrite (Hat _ Hs). apply IH. simpl in Hs.
    by apply andb_true_iff in Hs as [_ ?].
Qed.

(** X13: for a flag that holds no character special to a regular
    expression, a value written as the flag, white space and the value
    between double quotes is read back as written, white space inside it
    included, whatever follows the closing quote.  This holds when the
    value is not empty and holds no double quote, and the first character
    of the flag does not occur earlier in the input. *)
Theorem parseArg_quoted pre f fl ws v post :
  literal_flag (String f fl) = true →
  all_chars (λ c, negb (bool_decide (c = f))) pre = true →
  ws ≠ "" → all_chars is_white ws = true →
  v ≠ "" → all_chars not_quote v = true →
  parseArg (pre +:+ String f fl +:+ ws +:+ in_quotes v +:+ post) (String f fl)
  = Some v.
Proof.
  intros _ Hpre Hne Hws Hv Hnq. unfold parseArg.
  rewrite first_match_skip by done.
  rewrite (first_match_here _ _ v); [done|].
  unfold match_at. rewrite strip_prefix_app.
  unfold in_quotes. rewrite ?app_cons.
  rewrite spaces1_app by done. simpl.
  rewrite app_assoc_str, ?app_cons, ?app_nil_l, until_quote_app by done.
  by rewrite bool_decide_eq_false_2.
Qed.

Lemma parseArg_quoted_witness :
  parseArg ("/add_task " +:+ "--title" +:+ "  " +:+ in_quotes "Write the spec"
            +:+ " --desc x") "--title"
  = Some "Write the spec".
Proof.
  apply (parseArg_quoted "/add_task " "-" "-title" "  " "Write the spec"
           " --desc x"); (reflexivity || discriminate).
Defined.

(** X14: for a flag that holds no character special to a regular
    expression, and in an input without any double quote, a value written
    as the flag, white space and the value is read back as written up to
    the next white space or the end of the input.  This holds when the
    value is not empty and holds no white space, and the first character
    of the flag does not occur earlier in the input. *)
Theorem parseArg_plain pre f fl ws v post :
  literal_flag (String f fl) = true →
  all_chars (λ c, negb (bool_decide (c = f))) pre = true →
  ws ≠ "" → all_chars is_white ws = true →
  v ≠ "" → all_chars not_white v = true →
  post = "" ∨ (∃ c r, post = String c r ∧ is_white c = true) →
  all_chars not_quote (pre +:+ String f fl +:+ ws +:+ v +:+ post) = true →
  parseArg (pre +:+ String f fl +:+ ws +:+ v +:+ post) (String f fl) = Some v.
Proof.
  intros _ Hpre Hne Hws Hv Hnw Hpost Hnq. unfold parseArg.
  rewrite quoted_never_matches by done.
  rewrite first_match_skip by done.
  rewrite (first_match_here _ _ v); [done|].
  unfold match_at. rewrite strip_prefix_app.
  destruct v as [|c v]; [done|]. rewrite ?app_cons.
  simpl in Hnw. apply andb_true_iff in Hnw as [Hc Hnw].
  rewrite spaces1_app; [|done|done|by apply negb_true_iff].
  unfold plain_value.
  rewrite <-app_cons, non_spaces_app; [|by simpl; rewrite Hc, Hnw|done].
  by rewrite bool_decide_eq_false_2.
Qed.

Lemma parseArg_plain_witness :
  parseArg ("/complete_task " +:+ "--id" +:+ " " +:+ "task_000001" +:+ "")
    "--id"
  = Some "task_000001".
Proof.
  apply (parseArg_plain "/complete_task " "-" "-id" " " "task_000001" "");
    try (reflexivity || discriminate). by left.
Defined.

(** ** From the command line to the contract *)

Lemma parseArg_nonempty input flag v : parseArg input flag = Some v → v ≠ "".
Proof.
  unfold parseArg.
  destruct (first_match (match_at quoted_value flag) input) as [v'|] eqn:Hq.
  - intros [= ->].
    apply first_match_Some in Hq as (pre & rest & -> & Hm).
    apply match_at_Some in Hm as (ws & rest' & _ & _ & _ & Hv & _).
    by apply quoted_value_Some in Hv as (Hv & _).
  - intros Hp.
    apply first_match_Some in Hp as (pre & rest & -> & Hm).
    apply match_at_Some in Hm as (ws & rest' & _ & _ & _ & Hv & _).
    by apply plain_value_Some in Hv as (Hv & _).
Qed.

Lemma on_line_add_task line title desc a :
  on_line line = SubmitAddTask title desc a →
  startsWith (trim line) "/add_task" = true ∧
  parseArg (trim line) "--title" = Some title ∧
  desc = default "" (parseArg (trim line) "--desc") ∧
  a = parseArg (trim line) "--assignee".
Proof.
  unfold on_line.
  repeat (case_match; try discriminate).
  destruct (parseArg (trim line) "--title") as [t|] eqn:Ht; [|done].
  simpl in *. intros [= <- <- <-]. done.
Qed.

(** X15: the [add_task] transactions the command line submits carry a
    title that is a non-empty string, a desc that is a string and an
    assignee that is absent or non-empty.  On such params the contract's
    [add_task] never asks for a title and never faults with a type error:
    it succeeds, or it rejects a title over 140 or a desc over 1000 code
    units with nothing written. *)
Theorem cli_add_task_is_well_typed line title desc a :
  on_line line = SubmitAddTask title desc a →
  title ≠ "" ∧ a ≠ Some "" ∧
  ∀ now signer w,
    let res := add_task now signer (cli_add_task_params title desc a) w in
    (∃ r w', res = (Ok r, w') ∧ task_creator (res_task r) = signer) ∨
    res = (Throw (Error "title exceeds 140 characters"), w) ∨
    res = (Throw (Error "desc exceeds 1000 characters"), w).
Proof.
  intros (_ & Ht & _ & Ha)%on_line_add_task.
  apply parseArg_nonempty in Ht.
  split; [done|]. split.
  { intros ->. symmetry in Ha. by apply parseArg_nonempty in Ha. }
  intros now signer w res. subst res. unfold cli_add_task_params.
  rewrite add_task_eval by done. simpl.
  destruct (140 <? _); [by right; left|].
  destruct (1000 <? _); [by right; right|].
  left. eauto.
Qed.

Lemma cli_add_task_is_well_typed_witness :
  let line := "/add_task --title " +:+ in_quotes "Write spec"
              +:+ " --assignee trac1abc" in
  on_line line = SubmitAddTask "Write spec" "" (Some "trac1abc") ∧
  ∃ r w', add_task scenario_clock "A"
            (cli_add_task_params "Write spec" "" (Some "trac1abc")) empty_world
          = (Ok r, w').
Proof.
  intros line.
  assert (on_line line = SubmitAddTask "Write spec" "" (Some "trac1abc")) as H
    by (vm_compute; reflexivity).
  split; [exact H|].
  destruct (proj2 (proj2 (cli_add_task_is_well_typed _ _ _ _ H))
              scenario_clock "A" empty_world) as [(r & w' & E & _)|[E|E]].
  - by exists r, w'.
  - vm_compute in E. discriminate E.
  - vm_compute in E. discriminate E.
Defined.

(** X16: the command line submits [complete_task] and [cancel_task] with
    a non-empty id only, taken from behind [--id]; on such an id neither
    handler throws its [id is required] error, in any world. *)
Theorem cli_id_is_given line id :
  on_line line = SubmitCompleteTask id ∨ on_line line = SubmitCancelTask id →
  id ≠ "" ∧ parseArg (trim line) "--id" = Some id ∧
  ∀ now isAdmin signer w,
    fst (complete_task now signer id w) ≠ Throw (Error "id is required") ∧
    fst (cancel_task now isAdmin signer id w) ≠ Throw (Error "id is required").
Proof.
  intros H.
  assert (parseArg (trim line) "--id" = Some id) as Hid.
  { destruct H as [H|H]; revert H; unfold on_line;
      repeat (case_match; try discriminate);
      destruct (parseArg (trim line) "--id") as [i|] eqn:Hi; try done;
      simpl in *; by intros [= <-]. }
  pose proof (parseArg_nonempty _ _ _ Hid) as Hne.
  split; [done|]. split; [done|]. intros now isAdmin signer w. split.
  - destruct (complete_task_cases now signer id w)
      as [[? _]|[(_ & _ & E)|[(t & _ & _ & _ & E)|[(t & _ & _ & _ & _ & _ & E)
          |(t & _ & _ & _ & _ & E)]]]]; [done|..]; simpl in E; rewrite E;
      simpl; discriminate.
  - destruct (cancel_task_cases now isAdmin signer id w)
      as [[? _]|[(_ & _ & E)|[(t & _ & _ & _ & E)|[(t & _ & _ & _ & _ & _ & E)
          |(t & _ & _ & _ & _ & E)]]]]; [done|..]; simpl in E; rewrite E;
      simpl; discriminate.
Qed.

Lemma cli_id_is_given_witness :
  on_line "/cancel_task --id task_000002" = SubmitCancelTask "task_000002" ∧
  "task_000002" ≠ "" ∧
  parseArg (trim "/cancel_task --id task_000002") "--id" = Some "task_000002".
Proof.
  assert (on_line "/cancel_task --id task_000002"
          = SubmitCancelTask "task_000002") as H by (vm_compute; reflexivity).
  split; [exact H|].
  destruct (cli_id_is_given _ _ (or_intror H)) as (Hne & Hp & _).
  split; assumption.
Defined.

(** * More on the contract *)


(** X18: a successful [add_task], in any world: the returned task is
    open, created by the signer, carries the assignee as given and the
    two clock readings taken in [created_at] and [updated_at]; it is
    stored under its id, the id joins [tasks:all] and [tasks:open] (and
    the index of a non-empty assignee), the counter and the clock advance
    by one and two.  Every other record, the completed and cancelled sets
    and the index of every other assignee stay as they were. *)
Theorem add_task_effect now signer params w r w' :
  add_task now signer params w = (Ok r, w') →
  let id := res_id r in
  let t := res_task r in
  id = format_task_id (task_seq (store w) + 1) ∧
  task_id t = id ∧ task_status t = Open ∧ task_creator t = signer ∧
  task_assignee t = p_assignee params ∧
  task_created_at t = now (ticks w) ∧ task_updated_at t = now (S (ticks w)) ∧
  task_completed_by t = None ∧ task_cancelled_by t = None ∧
  record_of (store w') id = Some t ∧
  (∀ id', id' ≠ id → record_of (store w') id' = record_of (store w) id') ∧
  all_ids (store w') = {[id]} ∪ all_ids (store w) ∧
  status_set (store w') Open = {[id]} ∪ status_set (store w) Open ∧
  status_set (store w') Completed = status_set (store w) Completed ∧
  status_set (store w') Cancelled = status_set (store w) Cancelled ∧
  (∀ a, assignee_set (store w') a
        = if decide (p_assignee params = Some a ∧ a ≠ "")
          then {[id]} ∪ assignee_set (store w) a
          else assignee_set (store w) a) ∧
  task_seq (store w') = (task_seq (store w) + 1)%N ∧
  ticks w' = S (S (ticks w)).
Proof.
  intros H. apply add_task_inv in H as (t & d & _ & _ & _ & _ & _ & -> & ->).
  simpl. repeat split.
  - rewrite record_of_add_task. by rewrite decide_True.
  - intros id' Hne. rewrite record_of_add_task. by rewrite decide_False.
  - apply all_ids_add_task.
  - by rewrite status_set_add_task.
  - by rewrite status_set_add_task.
  - by rewrite status_set_add_task.
  - intros a. apply assignee_set_add_task.
  - apply task_seq_add_task.
Qed.

Lemma add_task_effect_witness :
  ∃ r w', add_task scenario_clock "A" review_spec (world_after 4) = (Ok r, w') ∧
          res_id r = "task_000002" ∧
          task_created_at (res_task r) = scenario_clock 3 ∧
          task_updated_at (res_task r) = scenario_clock 4 ∧
          assignee_set (store w') "B"
          = {[res_id r]} ∪ assignee_set (store (world_after 4)) "B".
Proof.
  on_outcome (add_task scenario_clock "A" review_spec (world_after 4))
    ltac:(fun r w' =>
      exists r, w';
      assert (add_task scenario_clock "A" review_spec (world_after 4)
              = (Ok r, w')) as H by (vm_compute; reflexivity);
      pose proof (add_task_effect _ _ _ _ _ _ H) as Heff).
  simpl in Heff.
  destruct Heff as (Hid & _ & _ & _ & _ & Hc & Hu & _ & _ & _ & _ & _ & _ & _
                    & _ & Has & _).
  split; [exact H|]. split; [reflexivity|]. split; [exact Hc|].
  split; [exact Hu|]. specialize (Has "B").
  rewrite decide_True in Has by (split; [reflexivity|discriminate]).
  exact Has.
Defined.

(** ** The counter and the ids *)

Lemma run_counter now isAdmin ops w acc :
  (N.of_nat (length (run_created now isAdmin ops w acc))
   + task_seq (store w)
   ≤ N.of_nat (length acc) + task_seq (store (snd (run now isAdmin ops w))))%N ∧
  ((∀ msg, Throw (TypeError msg) ∉ fst (run now isAdmin ops w)) →
   (N.of_nat (length (run_created now isAdmin ops w acc))
    + task_seq (store w)
    = N.of_nat (length acc) + task_seq (store (snd (run now isAdmin ops w))))%N).
Proof.
  revert w acc. induction ops as [|o ops IH]; intros w acc; simpl; [split; lia|].
  destruct (apply now isAdmin o w) as [r w'] eqn:H.
  assert ((N.of_nat (length (created_by o r ++ acc)) + task_seq (store w)
           ≤ N.of_nat (length acc) + task_seq (store w'))%N ∧
          ((∀ msg, r ≠ Throw (TypeError msg)) →
           (N.of_nat (length (created_by o r ++ acc)) + task_seq (store w)
            = N.of_nat (length acc) + task_seq (store w'))%N))
    as (Hle & Heq).
  { clear IH. destruct r as [res|[msg|msg]].
    - apply apply_detail in H
        as [(e & ? & _)
           |[(signer & params & t & d & -> & _ & _ & _ & _ & _ & Hr & ->)
           |[(signer & id & t & -> & _ & _ & _ & _ & Hr & ->)
            |(signer & id & t & -> & _ & _ & _ & _ & Hr & ->)]]];
        simplify_eq/=; rewrite ?task_seq_add_task, ?task_seq_move_task;
        (split; [|intros _]); lia.
    - apply apply_error in H as [-> _].
      destruct o; simpl; (split; [|intros _]); lia.
    - assert (created_by o (Throw (TypeError msg)) = []) as -> by by destruct o.
      assert (store w' = store w ∨
              store w' = store_increment "task_seq" (store w)) as [-> | ->].
      { apply apply_detail in H as [(e & _ & _ & Hst)|[H|[H|H]]]; [done|..].
        - by destruct H as (? & ? & ? & ? & _ & _ & _ & _ & _ & _ & ? & _).
        - by destruct H as (? & ? & ? & _ & _ & _ & _ & _ & ? & _).
        - by destruct H as (? & ? & ? & _ & _ & _ & _ & _ & ? & _). }
      + simpl. split; [lia|]. intros Hno. by destruct (Hno msg).
      + unfold task_seq. rewrite counter_of_store_increment. simpl.
        split; [lia|]. intros Hno. by destruct (Hno msg). }
  specialize (IH w' (created_by o r ++ acc)).
  destruct (run now isAdmin ops w') as [rs w'']. cbn [fst snd] in *.
  destruct IH as [IHle IHeq].
  split; [lia|]. intros Hno.
  assert (∀ msg, r ≠ Throw (TypeError msg)) as Hr.
  { intros msg ->. destruct (Hno msg). by left. }
  assert (∀ msg, Throw (TypeError msg) ∉ rs) as Hrs.
  { intros msg Hin. destruct (Hno msg). by right. }
  specialize (Heq Hr). specialize (IHeq Hrs). lia.
Qed.

(** X19: [task_seq] never falls behind the number of tasks created, and
    it equals that number along every log in which no operation faulted
    with a type error; a faulting [add_task] uses up a counter value
    without creating a task. *)
Theorem counter_counts_created now isAdmin ops :
  let w := snd (run now isAdmin ops empty_world) in
  let ids := run_created now isAdmin ops empty_world [] in
  (N.of_nat (length ids) ≤ task_seq (store w))%N ∧
  ((∀ msg, Throw (TypeError msg) ∉ fst (run now isAdmin ops empty_world)) →
   task_seq (store w) = N.of_nat (length ids)) ∧
  (∀ signer t a n w0,
     t ≠ "" → (String.length t ≤ 140)%nat →
     ∃ msg w1, add_task now signer (mkAddParams (JStr t) (JNum n) a) w0
               = (Throw (TypeError msg), w1) ∧
               task_seq (store w1) = (task_seq (store w0) + 1)%N ∧
               all_ids (store w1) = all_ids (store w0)).
Proof.
  intros w ids. subst w ids.
  destruct (run_counter now isAdmin ops empty_world []) as [Hle Heq].
  change (task_seq (store empty_world)) with 0%N in *. simpl in *.
  split; [lia|]. split.
  - intros Hno. specialize (Heq Hno). lia.
  - intros signer t a n w0 Ht Hl.
    rewrite add_task_eval by done.
    destruct (Z.ltb_spec 140 (Z.of_nat (String.length t))); [lia|]. simpl.
    eexists _, _. split; [done|]. simpl. split; [|done].
    apply (counter_of_store_increment "task_seq").
Qed.

Lemma counter_counts_created_witness :
  task_seq (store scenario_world)
  = N.of_nat (length (run_created scenario_clock scenario_admin scenario
                        empty_world [])).
Proof.
  apply (proj1 (proj2 (counter_counts_created scenario_clock scenario_admin
                         scenario))).
  intros msg Hin. vm_compute in Hin.
  repeat (apply elem_of_cons in Hin as [Hin|Hin]; [discriminate Hin|]).
  by apply elem_of_nil in Hin.
Defined.

(** ** Trimmed text *)

Lemma rev_app_eq s1 s2 : String.rev_app s1 s2 = String.rev s1 +:+ s2.
Proof.
  revert s2. induction s1 as [|c s1 IH]; intros s2; [done|].
  unfold String.rev. simpl. rewrite !IH, app_assoc_str. done.
Qed.

Lemma rev_cons c s : String.rev (String c s) = String.rev s +:+ String c "".
Proof. unfold String.rev at 1. simpl. apply rev_app_eq. Qed.

Lemma rev_append s1 s2 :
  String.rev (s1 +:+ s2) = String.rev s2 +:+ String.rev s1.
Proof.
  induction s1 as [|c s1 IH].
  - rewrite ?app_nil_l. by rewrite app_nil_r_str.
  - rewrite ?app_cons, !rev_cons, IH. by rewrite app_assoc_str.
Qed.

Lemma rev_involutive s : String.rev (String.rev s) = s.
Proof.
  induction s as [|c s IH]; [done|]. by rewrite rev_cons, rev_append, IH.
Qed.

Lemma trim_start_idem s : trim_start (trim_start s) = trim_start s.
Proof.
  destruct (trim_start_head s) as [->|(c & r & -> & Hc)]; [done|].
  by apply trim_start_fixed.
Qed.

Lemma trim_end_idem s : trim_end (trim_end s) = trim_end s.
Proof. unfold trim_end. by rewrite rev_involutive, trim_start_idem. Qed.

(** [trim_end] cuts a run of white space off the end. *)
Lemma trim_end_split s :
  ∃ ws, all_chars is_white ws = true ∧ s = trim_end s +:+ ws.
Proof.
  destruct (trim_start_split (String.rev s)) as (ws & Hws & Hs).
  exists (String.rev ws). split.
  - clear Hs. induction ws as [|c ws IH]; [done|]. simpl in Hws.
    apply andb_true_iff in Hws as [Hc Hws].
    rewrite rev_cons, all_chars_app, IH by done. simpl. by rewrite Hc.
  - unfold trim_end. rewrite <-rev_append, <-Hs. by rewrite rev_involutive.
Qed.

Lemma trim_start_trim_end s :
  trim_start s = s → trim_start (trim_end s) = trim_end s.
Proof.
  intros Hs. destruct (trim_end_split s) as (ws & _ & Hsplit).
  destruct (trim_end s) as [|c r] eqn:He; [done|].
  apply trim_start_fixed.
  destruct (trim_start_head s) as [Hn|(c' & r' & Hc' & Hw)].
  - rewrite Hs in Hn. rewrite Hn in Hsplit. discriminate Hsplit.
  - rewrite Hs, Hsplit in Hc'. rewrite ?app_cons in Hc'. by simplify_eq.
Qed.

Lemma trim_idem s : trim (trim s) = trim s.
Proof.
  unfold trim.
  rewrite (trim_start_trim_end (trim_start s)) by apply trim_start_idem.
  apply trim_end_idem.
Qed.

(** X20: in a world reached from the empty store, the title and the desc
    of every record are their own trim: neither starts nor ends with
    white space.  [trim] itself never lengthens a string and trimming
    twice is trimming once. *)
Theorem stored_text_is_trimmed w ids id t :
  history w ids → record_of (store w) id = Some t →
  trim (task_title t) = task_title t ∧ trim (task_desc t) = task_desc t ∧
  (∀ s, trim (trim s) = trim s ∧
        (String.length (trim s) ≤ String.length s)%nat).
Proof.
  intros Hw Hrec. split; [|split]; [| |split; [apply trim_idem|apply trim_length]].
  all: revert id t Hrec.
  all: induction Hw as [|w ids now isAdmin o r w' _ IH H]; intros id t Hrec;
    [by unfold record_of in Hrec; simpl in Hrec; rewrite lookup_empty in Hrec|].
  all: apply apply_detail in H
    as [(e & _ & _ & [Hst | Hst])
       |[(signer & params & tt & d & _ & _ & _ & _ & _ & _ & _ & ->)
       |[(signer & id' & t0 & _ & _ & Hrec0 & _ & _ & _ & ->)
        |(signer & id' & t0 & _ & _ & Hrec0 & _ & _ & _ & ->)]]];
    [rewrite Hst in Hrec; by eapply IH
    |rewrite Hst in Hrec; by eapply IH
    |simpl in Hrec; rewrite record_of_add_task in Hrec;
     case_decide; [simplify_eq/=; apply trim_idem|by eapply IH]
    |simpl in Hrec; rewrite record_of_move_task in Hrec;
     case_decide; [simplify_eq/=; by eapply IH|by eapply IH]..].
Qed.

Lemma stored_text_is_trimmed_witness :
  ∃ t, record_of (store scenario_world) "task_000002" = Some t ∧
       task_title t = "Review spec" ∧ trim (task_title t) = task_title t.
Proof.
  pose proof (history_run scenario_clock scenario_admin scenario empty_world []
                history_init) as Hw.
  on_record scenario_world "task_000002" ltac:(fun t =>
    exists t;
    assert (record_of (store scenario_world) "task_000002" = Some t) as Hrec
      by (vm_compute; reflexivity);
    pose proof (proj1 (stored_text_is_trimmed _ _ "task_000002" t Hw Hrec))
      as Htrim).
  split; [exact Hrec|]. split; [reflexivity|exact Htrim].
Defined.

(** ** The table of [/list_tasks] *)

Lemma pretty_N_length_3 (n : N) :
  (n < 1000)%N → (String.length (pretty n) ≤ 3)%nat.
Proof.
  intros Hn. unfold pretty, pretty_N. case_decide; [simpl; lia|].
  pose proof (pretty_N_go_length 3 n "" Hn) as H'. simpl in H'. lia.
Qed.

Lemma slice0_app p s : slice0 (String.length p) (p +:+ s) = p.
Proof.
  unfold slice0. induction p as [|c p IH]; simpl.
  - rewrite ?app_nil_l. by destruct s.
  - rewrite ?app_cons. simpl. by rewrite IH.
Qed.

Lemma slice0_task_id (n : N) :
  (n < 1000)%N → slice0 8 (format_task_id n) = "task_000".
Proof.
  intros Hn. pose proof (pretty_N_length_3 n Hn) as Hlen.
  unfold format_task_id, padStart.
  destruct (6 - String.length (pretty n))%nat as [|[|[|k]]] eqn:Hk; [lia..|].
  apply (slice0_app "task_000" (repeat_char k "0" +:+ pretty n)).
Qed.

(** X21: the table of [/list_tasks] shows the id of a task cut to its
    first eight characters, which is [task_000] for every id built from a
    counter value below 1000: two such tasks with the same status,
    assignee and title are printed as the same row. *)
Theorem table_rows_hide_ids t1 t2 (n m : N) :
  task_id t1 = format_task_id n → task_id t2 = format_task_id m →
  (n < 1000)%N → (m < 1000)%N →
  slice0 8 (task_id t1) = "task_000" ∧
  (task_status t1 = task_status t2 → task_assignee t1 = task_assignee t2 →
   task_title t1 = task_title t2 → table_row t1 = table_row t2).
Proof.
  intros H1 H2 Hn Hm. split; [by rewrite H1, slice0_task_id|].
  intros Hs Ha Ht. unfold table_row.
  by rewrite H1, H2, !slice0_task_id, Hs, Ha, Ht.
Qed.

Lemma table_rows_hide_ids_witness :
  ∃ t1 t3,
    record_of (store scenario_world) "task_000001" = Some t1 ∧
    record_of (store scenario_world) "task_000003" = Some t3 ∧
    slice0 8 (task_id t1) = "task_000" ∧ slice0 8 (task_id t3) = "task_000".
Proof.
  on_record scenario_world "task_000001" ltac:(fun t1 =>
    on_record scenario_world "task_000003" ltac:(fun t3 =>
      exists t1, t3;
      pose proof (table_rows_hide_ids t1 t3 1 3 eq_refl eq_refl eq_refl eq_refl)
        as [H13 _];
      pose proof (table_rows_hide_ids t3 t1 3 1 eq_refl eq_refl eq_refl eq_refl)
        as [H31 _])).
  split; [vm_compute; reflexivity|]. split; [vm_compute; reflexivity|].
  split; [exact H13|exact H31].
Defined.
